(** * The structure importer ([scripts/import_structure_csv.py])

    A shallow embedding of the importer: the flat rows of the structure
    table are grouped by work, and for every work a structure document
    (an ordered level catalogue and an ordered node list) is built,
    validated and written.

    Conventions of the embedding.
    - A Python [str] is a [string]; a character is its code point, and
      the embedding covers the code points U+0000..U+00FF that [ascii]
      enumerates.  On that range the tables below ([isspace],
      [int_isspace], [isprintable], decimal digits) are the ones of
      CPython 3.
    - A Python [int] is a [Z]; the bound that the interpreter may put on
      the number of digits of a decimal literal is not part of [int].
    - A Python [dict] is an association list kept in insertion order
      with pairwise distinct keys: iteration order decides which error
      is met first and how ties are ordered by the stable sort.
    - [fail] and an uncaught exception end the process; a computation
      that may do so returns a [result].
    - The output path of a work is what [pathlib] makes of it, and the
      file system may refuse a write: the run carries a [world] that
      holds what has been written and printed and how the file system
      answers. *)

From Stdlib Require Import List String Ascii ZArith NArith Bool Lia.
From Stdlib Require Import Permutation Sorted.
Import ListNotations.

Local Open Scope bool_scope.
Local Open Scope list_scope.

(** ** Python values and builtins *)

Module Py.

(** *** Characters *)

Definition ord (c : ascii) : N := N_of_ascii c.

Definition between (lo hi n : N) : bool := ((lo <=? n) && (n <=? hi))%N.

(** [str.isspace] on one character: the whitespace that [str.strip]
    removes. *)
Definition isspace (c : ascii) : bool :=
  between 9 13 (ord c) || between 28 32 (ord c)
  || (ord c =? 133)%N || (ord c =? 160)%N.

(** The whitespace that [int] skips around a literal: the separators
    U+001C..U+001F are not part of it. *)
Definition int_isspace (c : ascii) : bool :=
  between 9 13 (ord c) || (ord c =? 32)%N
  || (ord c =? 133)%N || (ord c =? 160)%N.

(** [str.isprintable] on one character. *)
Definition isprintable (c : ascii) : bool :=
  between 32 126 (ord c) || (between 161 255 (ord c) && negb (ord c =? 173)%N).

Definition digit_of (c : ascii) : option Z :=
  if between 48 57 (ord c) then Some (Z.of_N (ord c) - 48)%Z else None.

(** *** [str.strip] *)

Fixpoint lstrip (s : string) : string :=
  match s with
  | EmptyString => EmptyString
  | String c s' => if isspace c then lstrip s' else s
  end.

Fixpoint rstrip (s : string) : string :=
  match s with
  | EmptyString => EmptyString
  | String c s' =>
      match rstrip s' with
      | EmptyString => if isspace c then EmptyString else String c EmptyString
      | t => String c t
      end
  end.

Definition strip (s : string) : string := rstrip (lstrip s).

(** Truth value of a string: [if s:] holds for the non-empty ones. *)
Definition truthy (s : string) : bool :=
  match s with EmptyString => false | String _ _ => true end.

(** *** [repr] of a string *)

Fixpoint contains (c : ascii) (s : string) : bool :=
  match s with
  | EmptyString => false
  | String d s' => Ascii.eqb c d || contains c s'
  end.

Definition squote : ascii := ascii_of_N 39.
Definition dquote : ascii := ascii_of_N 34.
Definition backslash : ascii := ascii_of_N 92.

Definition hex_digit (n : N) : ascii :=
  if (n <? 10)%N then ascii_of_N (48 + n) else ascii_of_N (87 + n).

Definition str1 (c : ascii) : string := String c EmptyString.

Definition repr_char (quote c : ascii) : string :=
  if Ascii.eqb c quote || Ascii.eqb c backslash then String backslash (str1 c)
  else if (ord c =? 9)%N then String backslash "t"
  else if (ord c =? 10)%N then String backslash "n"
  else if (ord c =? 13)%N then String backslash "r"
  else if isprintable c then str1 c
  else String backslash
         (String "x" (String (hex_digit (ord c / 16)) (str1 (hex_digit (ord c mod 16))))).

Fixpoint repr_body (quote : ascii) (s : string) : string :=
  match s with
  | EmptyString => EmptyString
  | String c s' => (repr_char quote c ++ repr_body quote s')%string
  end.

Definition repr (s : string) : string :=
  let quote := if contains squote s && negb (contains dquote s)
               then dquote else squote in
  String quote (repr_body quote s ++ str1 quote)%string.

(** *** Abnormal termination

    [Exit msg] is [fail(msg)] of the importer: the line [ERROR: msg] on
    the error stream, then [sys.exit(1)].  [ValueError msg] is that
    exception left uncaught: the interpreter prints the traceback (the
    source locations of the active calls) followed by the line
    [ValueError: msg], and exits with status 1; likewise [KeyError],
    raised by [d[k]] on a key that [d] lacks, and [OSError cls msg], an
    error of the operating system raised under the class [cls]
    ([FileNotFoundError], [PermissionError], ...). *)

Inductive error : Type :=
  | Exit (msg : string)
  | ValueError (msg : string)
  | KeyError (msg : string)
  | OSError (cls msg : string).

Inductive result (A : Type) : Type :=
  | Ok (a : A)
  | Err (e : error).

Arguments Ok {A} a.
Arguments Err {A} e.

Definition bind {A B : Type} (c : result A) (k : A -> result B) : result B :=
  match c with
  | Ok a => k a
  | Err e => Err e
  end.

(** The closing line of what the process writes on its error stream. *)
Definition stderr_line (e : error) : string :=
  match e with
  | Exit msg => ("ERROR: " ++ msg)%string
  | ValueError msg => ("ValueError: " ++ msg)%string
  | KeyError msg => ("KeyError: " ++ msg)%string
  | OSError cls msg => (cls ++ ": " ++ msg)%string
  end.

Definition exit_status {A : Type} (r : result A) : Z :=
  match r with
  | Ok _ => 0%Z
  | Err _ => 1%Z
  end.

(** *** [int] of a string, base 10

    Optional whitespace, an optional sign, decimal digits in which single
    underscores may separate digits, optional whitespace.  The message of
    the [ValueError] quotes the literal, cut after 200 characters. *)

Fixpoint all_int_space (s : string) : bool :=
  match s with
  | EmptyString => true
  | String c s' => int_isspace c && all_int_space s'
  end.

Fixpoint int_skip (s : string) : string :=
  match s with
  | EmptyString => EmptyString
  | String c s' => if int_isspace c then int_skip s' else s
  end.

(** [int_digits acc us s]: the digits read so far are worth [acc]; [us]
    tells that the last character read was an underscore. *)
Fixpoint int_digits (acc : Z) (us : bool) (s : string) : option Z :=
  match s with
  | EmptyString => if us then None else Some acc
  | String c s' =>
      match digit_of c with
      | Some d => int_digits (10 * acc + d)%Z false s'
      | None =>
          if us then None
          else if (ord c =? 95)%N then int_digits acc true s'
          else if all_int_space s then Some acc else None
      end
  end.

Definition int_unsigned (s : string) : option Z :=
  match s with
  | EmptyString => None
  | String c s' =>
      match digit_of c with
      | Some d => int_digits d false s'
      | None => None
      end
  end.

Definition parse_int (s : string) : option Z :=
  match int_skip s with
  | EmptyString => None
  | String c s' =>
      if (ord c =? 45)%N then option_map Z.opp (int_unsigned s')
      else if (ord c =? 43)%N then int_unsigned s'
      else int_unsigned (String c s')
  end.

Definition int (s : string) : result Z :=
  match parse_int s with
  | Some z => Ok z
  | None =>
      Err (ValueError ("invalid literal for int() with base 10: "
                         ++ substring 0 200 (repr s))%string)
  end.

(** *** Ordering of strings: code point by code point, a proper prefix
    first. *)

Definition str_lt (a b : string) : bool := String.ltb a b.

(** *** [dict], in insertion order *)

Section Dict.
Context {V : Type}.

Definition dict : Type := list (string * V).

Fixpoint get (k : string) (d : dict) : option V :=
  match d with
  | [] => None
  | (k', v) :: d' => if String.eqb k' k then Some v else get k d'
  end.

Definition mem (k : string) (d : dict) : bool :=
  match get k d with Some _ => true | None => false end.

(** [d[k]] *)
Definition getitem (k : string) (d : dict) : result V :=
  match get k d with
  | Some v => Ok v
  | None => Err (KeyError (repr k))
  end.

(** [d.get(k, v)] *)
Definition get_default (k : string) (v : V) (d : dict) : V :=
  match get k d with Some v' => v' | None => v end.

(** [d[k] = v]: a key already there keeps its place. *)
Fixpoint set (k : string) (v : V) (d : dict) : dict :=
  match d with
  | [] => [(k, v)]
  | (k', v') :: d' =>
      if String.eqb k' k then (k', v) :: d' else (k', v') :: set k v d'
  end.

(** [d.setdefault(k, v)], for its effect on [d]. *)
Definition setdefault (k : string) (v : V) (d : dict) : dict :=
  if mem k d then d else set k v d.

Definition keys (d : dict) : list string := map fst d.
Definition values (d : dict) : list V := map snd d.
Definition items (d : dict) : list (string * V) := d.
End Dict.

Arguments dict V : clear implicits.

(** *** [sorted(l, key=...)]

    The sort is stable and compares keys with [<] only; on keys that [<]
    orders totally there is one such result, computed here by insertion. *)

Section Sorted.
Context {A K : Type} (key : A -> K) (lt : K -> K -> bool).

Fixpoint insert (x : A) (l : list A) : list A :=
  match l with
  | [] => [x]
  | y :: l' => if lt (key y) (key x) then y :: insert x l' else x :: l
  end.

Fixpoint sorted (l : list A) : list A :=
  match l with
  | [] => []
  | x :: l' => insert x (sorted l')
  end.
End Sorted.

(** *** [pathlib]: a pure POSIX path joined with a string

    [join base part] is [str(PurePosixPath(base) / part)] for a [base]
    without root.  The components of a path are what stands between the
    slashes, the empty ones and the ones that are a single dot left out;
    a [part] that begins with a slash replaces [base], and keeps two
    slashes as its root when it begins with exactly two. *)

Definition is_sep (c : ascii) : bool := (ord c =? 47)%N.

(** [s.split("/")] *)
Fixpoint split (s : string) : list string :=
  match s with
  | EmptyString => [EmptyString]
  | String c s' =>
      if is_sep c then EmptyString :: split s'
      else match split s' with
           | [] => [str1 c]
           | x :: xs => String c x :: xs
           end
  end.

(** [s.lstrip("/")] *)
Fixpoint lstrip_sep (s : string) : string :=
  match s with
  | EmptyString => EmptyString
  | String c s' => if is_sep c then lstrip_sep s' else s
  end.

Definition kept (x : string) : bool := truthy x && negb (String.eqb x ".").

Definition parts (rel : string) : list string := filter kept (split rel).

(** The root that [splitroot] finds in a part. *)
Definition root_of (part : string) : string :=
  match part with
  | EmptyString => EmptyString
  | String c _ =>
      if is_sep c
      then if (String.length part - String.length (lstrip_sep part) =? 2)%nat
           then "//"%string else "/"%string
      else EmptyString
  end.

Definition join (base part : string) : string :=
  match root_of part with
  | EmptyString =>
      match (parts base ++ parts part)%list with
      | [] => "."%string
      | l => String.concat "/" l
      end
  | root => (root ++ String.concat "/" (parts (lstrip_sep part)))%string
  end.

End Py.

(** ** The importer *)

Import Py.

Declare Scope py_scope.
Notation "x <- c ;; k" := (bind c (fun x => k))
  (at level 61, c at next level, right associativity) : py_scope.
Local Open Scope py_scope.

(** *** Data model *)

(** A row of the table, as the reader hands it over: every column holds
    a string, untrimmed.  (A line with fewer fields than the header, for
    which the reader supplies no string, is outside the embedding.) *)
Module Row.
Record t : Type := mk {
  work_id : string;
  node_id : string;
  parent_id : string;
  level_id : string;
  ordinal : string;
  lang : string;
  title : string;
  site : string;
  url : string
}.
End Row.

(** A node under construction and in the document.  The keys [parent]
    and [links] are absent until a row sets them; the order in which the
    two were set matters to the serializer only and is not kept. *)
Module Node.
Record t : Type := mk {
  id : string;
  level : string;
  ordinal : Z;
  title : dict string;
  parent : option string;
  links : option (dict string)
}.

Definition set_parent (p : string) (n : t) : t :=
  mk (id n) (level n) (ordinal n) (title n) (Some p) (links n).

Definition set_title (lang text : string) (n : t) : t :=
  mk (id n) (level n) (ordinal n) (Py.set lang text (title n)) (parent n) (links n).

(** [node.setdefault("links", {})] followed by [node["links"][site] = url] *)
Definition set_link (site url : string) (n : t) : t :=
  let l := match links n with Some l => l | None => [] end in
  mk (id n) (level n) (ordinal n) (title n) (parent n) (Some (Py.set site url l)).
End Node.

Module Level.
Record t : Type := mk { id : string; ordinal : Z }.
End Level.

Module Document.
Record t : Type := mk { levels : list Level.t; nodes : list Node.t }.
End Document.

(** The world of a run.  [files] holds, for every path through which a
    document has been written, the document written last through it;
    [stdout] holds the lines printed.  [refuses] is the file system as
    the importer meets it: the error, if any, with which it answers
    [open(path, "w")].  The importer makes no directory after the output
    directory and removes nothing, so the answer is taken to depend on
    the path alone; that directory is taken to exist (line 42 made it),
    names to be told apart by their characters, and no path to reach a
    file through a link or through [..].  The serialization of a
    document is the writer's business. *)
Record world : Type := mkWorld {
  files : dict Document.t;
  stdout : list string;
  refuses : string -> option error
}.

(** *** Validation helpers *)

Definition fail {A : Type} (msg : string) : result A := Err (Exit msg).

(** [sorted(REQUIRED_COLUMNS)] *)
Definition REQUIRED_COLUMNS : list string :=
  ["lang"; "level_id"; "node_id"; "ordinal"; "parent_id";
   "site"; "title"; "url"; "work_id"]%string.

Definition in_names (x : string) (l : list string) : bool :=
  existsb (String.eqb x) l.

Definition validate_columns (fieldnames : list string) : result unit :=
  match filter (fun c => negb (in_names c fieldnames)) REQUIRED_COLUMNS with
  | [] => Ok tt
  | missing => fail ("CSV is missing columns: " ++ String.concat ", " missing)%string
  end.

(** *** Grouping of the rows by work (the first loop of [main]) *)

(** [works[row["work_id"]].append(row)] on a [defaultdict(list)] *)
Definition append_row (works : dict (list Row.t)) (row : Row.t) : dict (list Row.t) :=
  let k := Row.work_id row in
  Py.set k (get_default k [] works ++ [row]) works.

Definition group_rows (rows : list Row.t) : dict (list Row.t) :=
  fold_left append_row rows [].

(** *** Building the structure of one work *)

(** The part of the loop body after [node = nodes[node_id]]: parent,
    title and link of the row are written into the node.  (The set
    [seen_parents] is filled here and read nowhere; it is left out.) *)
Definition update_node (row : Row.t) (node : Node.t) : Node.t :=
  let parent_id := strip (Row.parent_id row) in
  let node := if truthy parent_id then Node.set_parent parent_id node else node in
  let lang := strip (Row.lang row) in
  let title := strip (Row.title row) in
  let node := if truthy lang && truthy title
              then Node.set_title lang title node else node in
  let site := strip (Row.site row) in
  let url := strip (Row.url row) in
  if truthy site && truthy url then Node.set_link site url node else node.

(** One turn of the loop over the rows. *)
Definition process_row (work_id : string) (nodes : dict Node.t) (row : Row.t)
  : result (dict Node.t) :=
  let node_id := strip (Row.node_id row) in
  if negb (truthy node_id) then fail ("Empty node_id in work " ++ work_id)%string
  else
    let level := strip (Row.level_id row) in
    ordinal <- int (Row.ordinal row) ;;
    let nodes := setdefault node_id (Node.mk node_id level ordinal [] None None) nodes in
    node <- getitem node_id nodes ;;
    Ok (Py.set node_id (update_node row node) nodes).

Fixpoint accumulate (work_id : string) (nodes : dict Node.t) (rows : list Row.t)
  : result (dict Node.t) :=
  match rows with
  | [] => Ok nodes
  | row :: rows' =>
      nodes' <- process_row work_id nodes row ;;
      accumulate work_id nodes' rows'
  end.

(** The validation loop over [nodes.values()]. *)
Fixpoint check_parents (nodes : dict Node.t) (l : list Node.t) : result unit :=
  match l with
  | [] => Ok tt
  | node :: l' =>
      match Node.parent node with
      | Some p =>
          if negb (mem p nodes)
          then fail ("Parent '" ++ p ++ "' not found (node " ++ Node.id node ++ ")")%string
          else check_parents nodes l'
      | None => check_parents nodes l'
      end
  end.

(** Level inference: the least ordinal met for every level. *)
Definition level_step (level_ordinals : dict Z) (node : Node.t) : dict Z :=
  let lvl := Node.level node in
  Py.set lvl
    (Z.min (get_default lvl (Node.ordinal node) level_ordinals) (Node.ordinal node))
    level_ordinals.

Definition infer_levels (nodes : dict Node.t) : dict Z :=
  fold_left level_step (values nodes) [].

Definition levels_of (level_ordinals : dict Z) : list Level.t :=
  map (fun x => Level.mk (fst x) (snd x))
      (sorted (fun x : string * Z => snd x) Z.ltb (items level_ordinals)).

(** The sort key of a node and the order of such tuples: the first
    component that differs decides. *)
Definition sort_key (n : Node.t) : string * Z * string :=
  (match Node.parent n with Some p => p | None => EmptyString end,
   Node.ordinal n, Node.id n).

Definition key_lt (a b : string * Z * string) : bool :=
  let '(pa, oa, ia) := a in
  let '(pb, ob, ib) := b in
  if negb (String.eqb pa pb) then str_lt pa pb
  else if negb (Z.eqb oa ob) then Z.ltb oa ob
  else str_lt ia ib.

(** The document of a work: [build_work_structure] up to the point where
    [out] is complete. *)
Definition work_structure (work_id : string) (rows : list Row.t) : result Document.t :=
  nodes <- accumulate work_id [] rows ;;
  _ <- check_parents nodes (values nodes) ;;
  let levels := levels_of (infer_levels nodes) in
  let sorted_nodes := sorted sort_key key_lt (values nodes) in
  Ok (Document.mk levels sorted_nodes).

(** [OUT_DIR / f"{work_id}.structure.yaml"], as a string. *)
Definition OUT_DIR : string := "structures".

Definition out_path (work_id : string) : string :=
  join OUT_DIR (work_id ++ ".structure.yaml")%string.

(** [build_work_structure]: the document, then the file and the line
    [Wrote ...]; an error of [open] ends the run before either. *)
Definition build_work_structure (work_id : string) (rows : list Row.t) (w : world)
  : world * result unit :=
  match work_structure work_id rows with
  | Err e => (w, Err e)
  | Ok out =>
      match refuses w (out_path work_id) with
      | Some e => (w, Err e)
      | None =>
          (mkWorld (Py.set (out_path work_id) out (files w))
                   (stdout w ++ [("Wrote " ++ out_path work_id)%string])
                   (refuses w),
           Ok tt)
      end
  end.

(** *** The run *)

(** The loop of [main] over [works.items()]. *)
Fixpoint run_works (works : list (string * list Row.t)) (w : world)
  : world * result unit :=
  match works with
  | [] => (w, Ok tt)
  | (work_id, work_rows) :: rest =>
      match build_work_structure work_id work_rows w with
      | (w', Ok _) => run_works rest w'
      | (w', Err e) => (w', Err e)
      end
  end.

(** [main], from the header and the rows that the reader returns: the
    output directory is there and the table is read. *)
Definition main (fieldnames : list string) (rows : list Row.t) (w : world)
  : world * result unit :=
  match validate_columns fieldnames with
  | Err e => (w, Err e)
  | Ok _ => run_works (items (group_rows rows)) w
  end.

(** *** Vocabulary of the statements *)

(** The rows of a work that bear a node id, in their order. *)
Definition rows_for (node_id : string) (rows : list Row.t) : list Row.t :=
  filter (fun r => String.eqb (strip (Row.node_id r)) node_id) rows.

(** The rows that bear a work id, in their order. *)
Definition rows_of_work (work_id : string) (rows : list Row.t) : list Row.t :=
  filter (fun r => String.eqb (Row.work_id r) work_id) rows.

(** The node that the first row of a node id creates. *)
Definition first_node (node_id : string) (row : Row.t) (ordinal : Z) : Node.t :=
  Node.mk node_id (strip (Row.level_id row)) ordinal [] None None.

(** [update_node], as the step of a fold over rows. *)
Definition upd (n : Node.t) (r : Row.t) : Node.t := update_node r n.

Definition parent_key (n : Node.t) : string :=
  match Node.parent n with Some p => p | None => EmptyString end.

(** Ascending order of the composite key (parent or the empty string,
    ordinal, id): strings by code points, ordinals as numbers. *)
Definition key_le (a b : Node.t) : Prop :=
  String.compare (parent_key a) (parent_key b) = Lt
  \/ (parent_key a = parent_key b
      /\ ((Node.ordinal a < Node.ordinal b)%Z
          \/ (Node.ordinal a = Node.ordinal b
              /\ String.compare (Node.id a) (Node.id b) <> Gt))).

(** [a] stands before [b] in [l]. *)
Definition before {A : Type} (a b : A) (l : list A) : Prop :=
  exists l1 l2 l3, l = l1 ++ a :: l2 ++ b :: l3.

(** [needle in text] *)
Definition mentions (needle text : string) : bool :=
  match String.index 0 needle text with Some _ => true | None => false end.

(** A failed run has written no file. *)
Definition no_output_on_failure (world0 : world) (res : world * result unit) : Prop :=
  forall e, snd res = Err e -> files (fst res) = files world0.

(** The report of an error names the work and the node of a row. *)
Definition names_work_and_node (r : Row.t) (e : error) : Prop :=
  mentions (Row.work_id r) (stderr_line e) = true
  /\ mentions (strip (Row.node_id r)) (stderr_line e) = true.

(** The report of an error names a parent and a node. *)
Definition names_parent_and_child (p n : string) (e : error) : Prop :=
  mentions p (stderr_line e) = true /\ mentions n (stderr_line e) = true.

(** A work whose document gets built. *)
Definition builds (g : string * list Row.t) : Prop :=
  exists out, work_structure (fst g) (snd g) = Ok out.

(** Nothing written, nothing printed, and a file system that accepts
    every write. *)
Definition empty_world : world := mkWorld [] [] (fun _ => None).

(** A work id without a slash: its file stands in the output directory. *)
Definition plain_id (work_id : string) : bool := negb (contains "/"%char work_id).

(** [d[k] = v] for each pair of a list, in its order. *)
Definition write_all (l : list (string * Document.t)) (d : dict Document.t)
  : dict Document.t :=
  fold_left (fun d kv => Py.set (fst kv) (snd kv) d) l d.

Definition header : list string :=
  ["work_id"; "node_id"; "parent_id"; "level_id"; "ordinal";
   "lang"; "title"; "site"; "url"]%string.

(** *** Sample tables *)

Module Sample.
Local Open Scope string_scope.

Definition row (work node parent level ordinal lang title site url : string)
  : Row.t :=
  Row.mk work node parent level ordinal lang title site url.

Definition document_of (work_id : string) (rows : list Row.t) : Document.t :=
  match work_structure work_id rows with
  | Ok out => out
  | Err _ => Document.mk [] []
  end.

(** A sound work followed by a work with a row without node id. *)
Definition second_work_fails : list Row.t :=
  [row "W1" "N1" "" "L1" "1" "en" "Intro" "" "";
   row "W2" "" "" "L1" "1" "en" "Intro" "" ""].

(** A row whose ordinal is no integer. *)
Definition bad_ordinal_row : Row.t :=
  row "W1" "N1" "" "L1" "abc" "en" "Intro" "" "".

(** A node described by two rows that disagree on level and ordinal. *)
Definition repeated_node : list Row.t :=
  [row "W1" "N0" "" "book" "1" "en" "Book" "" "";
   row "W1" " N1 " "" " chapter " " 1 " "en" "Intro" "" "";
   row "W1" "N1" "N0" "section" "7" "fr" "Intro-fr" "wiki" "http://x"].

Definition repeated_node_out : Document.t :=
  Eval vm_compute in document_of "W1" repeated_node.

Definition N1 : Node.t :=
  Node.mk "N1" "chapter" 1 [("en", "Intro"); ("fr", "Intro-fr")]
          (Some "N0") (Some [("wiki", "http://x")]).

(** A parent that no row defines. *)
Definition dangling : list Row.t :=
  [row "W1" "N1" "N9" "L1" "1" "en" "Intro" "" ""].

Definition dangling_nodes : dict Node.t :=
  [("N1", Node.mk "N1" "L1" 1 [("en", "Intro")] (Some "N9") None)].

(** A small forest, rows out of order. *)
Definition forest : list Row.t :=
  [row "W1" "b" "a" "sec" "2" "" "" "" "";
   row "W1" "a" "" "ch" "5" "" "" "" "";
   row "W1" "c" "a" "sec" "1" "" "" "" "";
   row "W1" "d" "" "ch" "1" "" "" "" ""].

Definition forest_out : Document.t :=
  Eval vm_compute in document_of "W1" forest.

(** A node that is its own parent, and two nodes that are each
    other's parent. *)
Definition cycle : list Row.t :=
  [row "W1" "S" "S" "L1" "1" "" "" "" "";
   row "W1" "A" "B" "L1" "2" "" "" "" "";
   row "W1" "B" "A" "L1" "3" "" "" "" ""].

Definition cycle_nodes : dict Node.t :=
  [("S", Node.mk "S" "L1" 1 [] (Some "S") None);
   ("A", Node.mk "A" "L1" 2 [] (Some "B") None);
   ("B", Node.mk "B" "L1" 3 [] (Some "A") None)].

(** Two work ids that differ by a leading blank. *)
Definition blank_in_work_id : list Row.t :=
  [row "W1" "N1" "" "L1" "1" "" "" "" "";
   row " W1" "N2" "" "L1" "2" "" "" "" ""].
End Sample.

(** *** Vocabulary of the further statements *)

(** The node id that a row bears. *)
Definition trimmed_node_id (r : Row.t) : string := strip (Row.node_id r).

(** A row on which the loop does not stop. *)
Definition row_valid (r : Row.t) : Prop :=
  strip (Row.node_id r) <> EmptyString /\ parse_int (Row.ordinal r) <> None.

(** The value that the last row with a value gives. *)
Definition last_where {A : Type} (f : Row.t -> option A) (rows : list Row.t)
  : option A :=
  fold_left (fun acc r => match f r with Some a => Some a | None => acc end)
            rows None.

(** What a row says on the parent, on the title in a language and on the
    link to a site. *)
Definition parent_of_row (r : Row.t) : option string :=
  if truthy (strip (Row.parent_id r)) then Some (strip (Row.parent_id r)) else None.

Definition title_of_row (lang : string) (r : Row.t) : option string :=
  if truthy (strip (Row.lang r)) && truthy (strip (Row.title r))
     && String.eqb (strip (Row.lang r)) lang
  then Some (strip (Row.title r)) else None.

Definition link_of_row (site : string) (r : Row.t) : option string :=
  if truthy (strip (Row.site r)) && truthy (strip (Row.url r))
     && String.eqb (strip (Row.site r)) site
  then Some (strip (Row.url r)) else None.

Definition has_link (r : Row.t) : bool :=
  truthy (strip (Row.site r)) && truthy (strip (Row.url r)).

(** The distinct strings of a list, each at its first occurrence. *)
Fixpoint first_seen (l : list string) : list string :=
  match l with
  | [] => []
  | x :: l' => x :: filter (fun y => negb (String.eqb y x)) (first_seen l')
  end.

(** A string without blanks around it. *)
Definition is_trimmed (s : string) : Prop := strip s = s.

(** The strings of a node are trimmed, and those that the loop tests
    are not empty. *)
Definition pair_clean (kv : string * string) : Prop :=
  is_trimmed (fst kv) /\ fst kv <> EmptyString
  /\ is_trimmed (snd kv) /\ snd kv <> EmptyString.

Definition node_clean (n : Node.t) : Prop :=
  is_trimmed (Node.id n) /\ Node.id n <> EmptyString
  /\ is_trimmed (Node.level n)
  /\ (forall p, Node.parent n = Some p -> is_trimmed p /\ p <> EmptyString)
  /\ Forall pair_clean (Node.title n)
  /\ (forall l, Node.links n = Some l -> l <> [] /\ Forall pair_clean l).

(** The lines [Wrote ...] of a list of works. *)
Definition wrote_lines (work_ids : list string) : list string :=
  map (fun w => ("Wrote " ++ out_path w)%string) work_ids.

Module Sample2.
Local Open Scope string_scope.

(** The header without two of the columns. *)
Definition short_header : list string :=
  ["work_id"; "node_id"; "level_id"; "ordinal"; "lang"; "title"; "url"].

(** A row without node id after a node whose parent is missing. *)
Definition blank_id_after_dangling : list Row.t :=
  [Sample.row "W1" "N1" "N9" "L1" "1" "" "" "" ""].

Definition blank_id_row : Row.t :=
  Sample.row "W1" "  " "" "L1" "x" "" "" "" "".

(** Two works, rows interleaved. *)
Definition two_works : list Row.t :=
  [Sample.row "W2" "A" "" "L1" "1" "en" "A" "" "";
   Sample.row "W1" "B" "" "L1" "1" "en" "B" "" "";
   Sample.row "W2" "C" "A" "L2" "1" "en" "C" "" ""].

(** The rows of the forest in another order. *)
Definition forest_shuffled : list Row.t :=
  [Sample.row "W1" "d" "" "ch" "1" "" "" "" "";
   Sample.row "W1" "c" "a" "sec" "1" "" "" "" "";
   Sample.row "W1" "a" "" "ch" "5" "" "" "" "";
   Sample.row "W1" "b" "a" "sec" "2" "" "" "" ""].

Definition forest_shuffled_out : Document.t :=
  Eval vm_compute in Sample.document_of "W1" forest_shuffled.

Definition forest_nodes : dict Node.t :=
  Eval vm_compute in
    match accumulate "W1" [] Sample.forest with Ok d => d | Err _ => [] end.

Definition forest_shuffled_nodes : dict Node.t :=
  Eval vm_compute in
    match accumulate "W1" [] forest_shuffled with Ok d => d | Err _ => [] end.

(** The first work of [Sample.second_work_fails], and the world after
    it is written. *)
Definition first_work : string * list Row.t :=
  ("W1", [Sample.row "W1" "N1" "" "L1" "1" "en" "Intro" "" ""]).

Definition after_first_work : world :=
  Eval vm_compute in fst (run_works [first_work] empty_world).

(** Two nodes whose parents are both missing. *)
Definition two_dangling : list Row.t :=
  [Sample.row "W1" "n1" "gone1" "L1" "1" "" "" "" "";
   Sample.row "W1" "n2" "gone2" "L1" "2" "" "" "" ""].

Definition two_dangling_nodes : dict Node.t :=
  [("n1", Node.mk "n1" "L1" 1 [] (Some "gone1") None);
   ("n2", Node.mk "n2" "L1" 2 [] (Some "gone2") None)].

(** A file system in which the output directory has no directory [a]. *)
Definition no_directory_a : world :=
  mkWorld [] []
    (fun path =>
       if String.eqb path "structures/a/b.structure.yaml"
       then Some (OSError "FileNotFoundError"
                    "[Errno 2] No such file or directory: 'structures/a/b.structure.yaml'")
       else None).

(** A work whose id names a directory, and two work ids with one path. *)
Definition work_in_directory : list Row.t :=
  [Sample.row "a/b" "N1" "" "L1" "1" "" "" "" ""].

Definition same_path : list Row.t :=
  [Sample.row "W1" "N1" "" "L1" "1" "" "" "" "";
   Sample.row "./W1" "N2" "" "L1" "2" "" "" "" ""].

Definition two_works_world : world :=
  Eval vm_compute in fst (main header two_works empty_world).

Definition two_works_again : world :=
  Eval vm_compute in fst (main header two_works two_works_world).
End Sample2.

(** ** Facts about the builtins *)

Section DictFacts.
Context {V : Type}.
Implicit Types (d : dict V) (k : string) (v : V).

Lemma get_set_same d k v : get k (Py.set k v d) = Some v.
Proof.
  induction d as [|[k' v'] d IH]; simpl.
  - now rewrite String.eqb_refl.
  - destruct (String.eqb k' k) eqn:E; simpl; now rewrite E.
Qed.

Lemma get_set_other d k k' v : k <> k' -> get k' (Py.set k v d) = get k' d.
Proof.
  intros Hne. induction d as [|[k0 v0] d IH]; simpl.
  - apply String.eqb_neq in Hne. now rewrite Hne.
  - destruct (String.eqb k0 k) eqn:E; simpl.
    + apply String.eqb_eq in E. subst k0.
      apply String.eqb_neq in Hne. now rewrite Hne.
    + now rewrite IH.
Qed.

Lemma get_None_notin d k : get k d = None <-> ~ In k (keys d).
Proof.
  induction d as [|[k' v'] d IH]; simpl.
  - tauto.
  - destruct (String.eqb_spec k' k) as [->|Hne].
    + split; [discriminate | tauto].
    + rewrite IH. tauto.
Qed.

Lemma mem_In d k : mem k d = true <-> In k (keys d).
Proof.
  unfold mem. destruct (get k d) eqn:E.
  - split; [intros _ | reflexivity].
    destruct (in_dec string_dec k (keys d)) as [H|H]; [exact H|].
    apply get_None_notin in H. congruence.
  - split; [discriminate|]. intros H. apply get_None_notin in E. tauto.
Qed.

Lemma get_In d k v : get k d = Some v -> In (k, v) d.
Proof.
  induction d as [|[k' v'] d IH]; simpl; [discriminate|].
  destruct (String.eqb_spec k' k) as [->|Hne].
  - intros [= ->]. now left.
  - intros H. right. now apply IH.
Qed.

Lemma In_get d k v : NoDup (keys d) -> In (k, v) d -> get k d = Some v.
Proof.
  induction d as [|[k' v'] d IH]; simpl; [tauto|].
  intros Hnd [[= -> ->]|Hin].
  - now rewrite String.eqb_refl.
  - inversion Hnd as [|? ? Hnotin Hnd']; subst.
    destruct (String.eqb_spec k' k) as [->|Hne].
    + exfalso. apply Hnotin. now apply (in_map fst) in Hin.
    + now apply IH.
Qed.

Lemma set_absent d k v : get k d = None -> Py.set k v d = d ++ [(k, v)].
Proof.
  induction d as [|[k' v'] d IH]; simpl; [reflexivity|].
  destruct (String.eqb k' k); [discriminate|].
  intros H. now rewrite IH.
Qed.

Lemma keys_set_present d k v : get k d <> None -> keys (Py.set k v d) = keys d.
Proof.
  induction d as [|[k' v'] d IH]; simpl; [congruence|].
  destruct (String.eqb k' k); simpl; [reflexivity|].
  intros H. now rewrite IH.
Qed.

Lemma NoDup_keys_set d k v : NoDup (keys d) -> NoDup (keys (Py.set k v d)).
Proof.
  intros Hnd. destruct (get k d) eqn:E.
  - rewrite keys_set_present; [exact Hnd | congruence].
  - rewrite set_absent by exact E. unfold keys. rewrite map_app. simpl.
    apply NoDup_rev in Hnd. rewrite <- (rev_involutive (map fst d ++ [k])).
    apply NoDup_rev. rewrite rev_app_distr. simpl. constructor.
    + rewrite <- in_rev. now apply get_None_notin.
    + exact Hnd.
Qed.

(** Where a key stands in a dict that holds it. *)
Lemma get_split d k v :
  get k d = Some v ->
  exists d1 d2, d = d1 ++ (k, v) :: d2 /\ get k d1 = None.
Proof.
  induction d as [|[k' v'] d IH]; simpl; [discriminate|].
  destruct (String.eqb_spec k' k) as [->|Hne].
  - intros [= ->]. now exists [], d.
  - intros H. destruct (IH H) as (d1 & d2 & -> & Hn).
    exists ((k', v') :: d1), d2. split; [reflexivity|].
    simpl. apply String.eqb_neq in Hne. now rewrite Hne.
Qed.

Lemma set_split d1 d2 k v v' :
  get k d1 = None ->
  Py.set k v' (d1 ++ (k, v) :: d2) = d1 ++ (k, v') :: d2.
Proof.
  induction d1 as [|[k0 v0] d1 IH]; simpl.
  - now rewrite String.eqb_refl.
  - destruct (String.eqb k0 k); [discriminate|].
    intros H. now rewrite IH.
Qed.
End DictFacts.

(** *** The stable sort *)

Section SortedFacts.
Context {A K : Type} (key : A -> K) (lt : K -> K -> bool).
Variable le : A -> A -> Prop.
Hypothesis lt_le : forall x y, lt (key x) (key y) = true -> le x y.
Hypothesis not_lt_le : forall x y, lt (key y) (key x) = false -> le x y.
Hypothesis le_trans : forall x y z, le x y -> le y z -> le x z.

Lemma insert_perm x l : Permutation (insert key lt x l) (x :: l).
Proof.
  induction l as [|y l IH]; simpl.
  - apply Permutation_refl.
  - destruct (lt (key y) (key x)).
    + apply perm_trans with (y :: x :: l).
      * now apply perm_skip.
      * apply perm_swap.
    + apply Permutation_refl.
Qed.

Lemma sorted_perm l : Permutation (sorted key lt l) l.
Proof.
  induction l as [|x l IH]; simpl.
  - apply perm_nil.
  - apply perm_trans with (x :: sorted key lt l).
    + apply insert_perm.
    + now apply perm_skip.
Qed.

Lemma insert_sorted x l :
  StronglySorted le l -> StronglySorted le (insert key lt x l).
Proof.
  induction l as [|y l IH]; simpl; intros Hs.
  - constructor; [constructor | constructor].
  - inversion Hs as [|? ? Hs' Hall]; subst.
    destruct (lt (key y) (key x)) eqn:E.
    + constructor; [now apply IH|].
      apply Forall_forall. intros z Hz.
      apply (Permutation_in _ (insert_perm x l)) in Hz.
      destruct Hz as [<-|Hz].
      * now apply lt_le.
      * rewrite Forall_forall in Hall. now apply Hall.
    + constructor; [exact Hs|].
      assert (Hxy : le x y) by now apply not_lt_le.
      constructor; [exact Hxy|].
      apply Forall_forall. intros z Hz. rewrite Forall_forall in Hall.
      apply le_trans with y; [exact Hxy | now apply Hall].
Qed.

Lemma sorted_sorted l : StronglySorted le (sorted key lt l).
Proof.
  induction l as [|x l IH]; simpl.
  - constructor.
  - now apply insert_sorted.
Qed.
End SortedFacts.

(** In a strongly sorted list, what stands before is below. *)
Lemma StronglySorted_before {A : Type} (le : A -> A -> Prop) (a b : A) l :
  StronglySorted le l -> before a b l -> le a b.
Proof.
  intros Hs (l1 & l2 & l3 & ->).
  induction l1 as [|x l1 IH]; simpl in Hs.
  - inversion Hs as [|? ? _ Hall]; subst.
    rewrite Forall_forall in Hall. apply Hall.
    apply in_or_app. right. now left.
  - inversion Hs; subst. now apply IH.
Qed.

(** *** The order of strings *)

Lemma ascii_compare_refl c : Ascii.compare c c = Eq.
Proof. unfold Ascii.compare. apply N.compare_refl. Qed.

Lemma string_compare_refl s : String.compare s s = Eq.
Proof.
  induction s as [|c s IH]; simpl; [reflexivity|].
  now rewrite ascii_compare_refl.
Qed.

Lemma string_compare_lt_trans a b c :
  String.compare a b = Lt -> String.compare b c = Lt -> String.compare a c = Lt.
Proof.
  revert b c. induction a as [|x a IH]; intros [|y b] [|z c]; simpl;
    try discriminate; try reflexivity.
  destruct (Ascii.compare x y) eqn:Exy; try discriminate;
    destruct (Ascii.compare y z) eqn:Eyz; try discriminate; intros H1 H2.
  - apply Ascii.compare_eq_iff in Exy, Eyz. subst.
    rewrite ascii_compare_refl. now apply IH with b.
  - apply Ascii.compare_eq_iff in Exy. subst. now rewrite Eyz.
  - apply Ascii.compare_eq_iff in Eyz. subst. now rewrite Exy.
  - unfold Ascii.compare in *. rewrite N.compare_lt_iff in Exy, Eyz.
    assert (H : (N_of_ascii x < N_of_ascii z)%N) by lia.
    apply N.compare_lt_iff in H. now rewrite H.
Qed.

Lemma string_compare_gt_lt a b : String.compare a b = Gt <-> String.compare b a = Lt.
Proof.
  rewrite (String.compare_antisym b a).
  destruct (String.compare a b); simpl; split; congruence.
Qed.

Lemma string_compare_not_gt_trans a b c :
  String.compare a b <> Gt -> String.compare b c <> Gt -> String.compare a c <> Gt.
Proof.
  intros H1 H2.
  destruct (String.compare a b) eqn:Eab; [| |congruence].
  - apply String.compare_eq_iff in Eab. now subst.
  - destruct (String.compare b c) eqn:Ebc; [| |congruence].
    + apply String.compare_eq_iff in Ebc. subst. congruence.
    + rewrite (string_compare_lt_trans a b c Eab Ebc). discriminate.
Qed.

Lemma str_lt_compare a b : str_lt a b = true <-> String.compare a b = Lt.
Proof.
  unfold str_lt, String.ltb.
  destruct (String.compare a b); split; congruence.
Qed.

(** *** [int] and [strip]

    [int] skips blanks around the literal by itself, but fewer than
    [strip] removes. *)
Lemma int_skips_less_than_strip :
  parse_int " 5 " = Some 5%Z
  /\ strip (String (ascii_of_N 28) "5") = "5"%string
  /\ parse_int (String (ascii_of_N 28) "5") = None.
Proof. repeat split; reflexivity. Qed.

(** ** Grouping *)

Lemma group_rows_snoc rows r :
  group_rows (rows ++ [r]) = append_row (group_rows rows) r.
Proof. unfold group_rows. now rewrite fold_left_app. Qed.

Lemma rows_of_work_snoc w rows r :
  rows_of_work w (rows ++ [r])
  = rows_of_work w rows ++ (if String.eqb (Row.work_id r) w then [r] else []).
Proof. unfold rows_of_work. rewrite filter_app. reflexivity. Qed.

Lemma group_rows_get rows w :
  get w (group_rows rows)
  = match rows_of_work w rows with [] => None | rs => Some rs end.
Proof.
  induction rows as [|r rows IH] using rev_ind; [reflexivity|].
  rewrite group_rows_snoc, rows_of_work_snoc. unfold append_row.
  destruct (String.eqb_spec (Row.work_id r) w) as [->|Hne].
  - rewrite get_set_same. unfold get_default. rewrite IH.
    destruct (rows_of_work w rows); reflexivity.
  - rewrite get_set_other by exact Hne. rewrite IH, app_nil_r. reflexivity.
Qed.

Lemma group_rows_NoDup rows : NoDup (keys (group_rows rows)).
Proof.
  induction rows as [|r rows IH] using rev_ind; [constructor|].
  rewrite group_rows_snoc. now apply NoDup_keys_set.
Qed.

Lemma append_row_concat (d : dict (list Row.t)) r :
  Permutation (List.concat (values (append_row d r))) (List.concat (values d) ++ [r]).
Proof.
  unfold append_row, get_default.
  destruct (get (Row.work_id r) d) as [old|] eqn:E.
  - destruct (get_split _ _ _ E) as (d1 & d2 & -> & Hn).
    rewrite set_split by exact Hn.
    unfold values. rewrite !map_app, !concat_app. simpl.
    rewrite <- !app_assoc. apply Permutation_app_head, Permutation_app_head.
    apply Permutation_app_comm.
  - rewrite set_absent by exact E.
    unfold values. rewrite map_app, concat_app. simpl.
    apply Permutation_refl.
Qed.

Lemma group_rows_concat rows :
  Permutation (List.concat (values (group_rows rows))) rows.
Proof.
  induction rows as [|r rows IH] using rev_ind; [apply perm_nil|].
  rewrite group_rows_snoc.
  apply perm_trans with (List.concat (values (group_rows rows)) ++ [r]).
  - apply append_row_concat.
  - now apply Permutation_app_tail.
Qed.

Lemma group_rows_In rows w rs :
  In (w, rs) (items (group_rows rows)) <-> rs = rows_of_work w rows /\ rs <> [].
Proof.
  unfold items. split.
  - intros Hin. apply (In_get _ _ _ (group_rows_NoDup rows)) in Hin.
    rewrite group_rows_get in Hin.
    destruct (rows_of_work w rows); [discriminate|].
    injection Hin as <-. split; [reflexivity | discriminate].
  - intros [-> Hne]. apply get_In. rewrite group_rows_get.
    destruct (rows_of_work w rows); [congruence | reflexivity].
Qed.

(** C5.  The grouper maps every work id to exactly the rows that bear
    it, in their order in the input: the keys are pairwise distinct, a
    pair [(w, rs)] is in the mapping exactly when [rs] is the non-empty
    subsequence of the rows of [w], the groups together hold every row
    once, and no rows give the empty mapping. *)
Theorem group_rows_partition (rows : list Row.t) :
  NoDup (keys (group_rows rows))
  /\ (forall w rs, In (w, rs) (items (group_rows rows))
                   <-> rs = rows_of_work w rows /\ rs <> [])
  /\ Permutation (List.concat (values (group_rows rows))) rows
  /\ group_rows [] = [].
Proof.
  split; [apply group_rows_NoDup|].
  split; [|split; [apply group_rows_concat | reflexivity]].
  intros w rs. apply group_rows_In.
Qed.

(** ** Accumulation of the nodes *)

Lemma update_node_fixed r n :
  Node.id (update_node r n) = Node.id n
  /\ Node.level (update_node r n) = Node.level n
  /\ Node.ordinal (update_node r n) = Node.ordinal n.
Proof.
  unfold update_node.
  destruct (truthy (strip (Row.parent_id r)));
    destruct (truthy (strip (Row.lang r)) && truthy (strip (Row.title r)));
    destruct (truthy (strip (Row.site r)) && truthy (strip (Row.url r)));
    simpl; auto.
Qed.

Lemma update_node_effect r n :
  Node.parent (update_node r n)
  = (if truthy (strip (Row.parent_id r))
     then Some (strip (Row.parent_id r)) else Node.parent n)
  /\ Node.title (update_node r n)
     = (if truthy (strip (Row.lang r)) && truthy (strip (Row.title r))
        then Py.set (strip (Row.lang r)) (strip (Row.title r)) (Node.title n)
        else Node.title n)
  /\ Node.links (update_node r n)
     = (if truthy (strip (Row.site r)) && truthy (strip (Row.url r))
        then Some (Py.set (strip (Row.site r)) (strip (Row.url r))
                     (match Node.links n with Some l => l | None => [] end))
        else Node.links n).
Proof.
  unfold update_node.
  destruct (truthy (strip (Row.parent_id r)));
    destruct (truthy (strip (Row.lang r)) && truthy (strip (Row.title r)));
    destruct (truthy (strip (Row.site r)) && truthy (strip (Row.url r)));
    simpl; auto.
Qed.

Lemma fold_upd_fixed rs n :
  Node.id (fold_left upd rs n) = Node.id n
  /\ Node.level (fold_left upd rs n) = Node.level n
  /\ Node.ordinal (fold_left upd rs n) = Node.ordinal n.
Proof.
  revert n. induction rs as [|r rs IH]; intros n; simpl; [auto|].
  destruct (IH (upd n r)) as (H1 & H2 & H3).
  destruct (update_node_fixed r n) as (G1 & G2 & G3). unfold upd in *.
  rewrite H1, H2, H3. auto.
Qed.

(** What a turn of the loop that does not fail has done. *)
Lemma process_row_ok w nodes r nodes' :
  process_row w nodes r = Ok nodes' ->
  strip (Row.node_id r) <> EmptyString
  /\ exists o, int (Row.ordinal r) = Ok o
     /\ nodes' = Py.set (strip (Row.node_id r))
                   (update_node r
                      (get_default (strip (Row.node_id r))
                         (first_node (strip (Row.node_id r)) r o) nodes))
                   nodes.
Proof.
  unfold process_row. intros H.
  destruct (strip (Row.node_id r)) as [|c s] eqn:Eid; simpl in H; [discriminate|].
  split; [discriminate|].
  destruct (int (Row.ordinal r)) as [o|e]; simpl in H; [|discriminate].
  exists o. split; [reflexivity|].
  unfold setdefault, mem, getitem, get_default, first_node in *.
  destruct (get (String c s) nodes) as [n0|] eqn:E.
  - rewrite E in H. simpl in H. now injection H as <-.
  - rewrite get_set_same in H. simpl in H. injection H as <-.
    rewrite (set_absent nodes _ (Node.mk _ _ _ _ _ _)) by exact E.
    rewrite set_split by exact E. symmetry. now apply set_absent.
Qed.

Lemma rows_for_cons id r rows :
  rows_for id (r :: rows)
  = if String.eqb (strip (Row.node_id r)) id then r :: rows_for id rows
    else rows_for id rows.
Proof. reflexivity. Qed.

(** The node that the loop holds for an id, from the rows of that id. *)
Lemma accumulate_get w rows : forall acc nodes,
  accumulate w acc rows = Ok nodes ->
  forall id,
    match get id acc with
    | Some n0 => get id nodes = Some (fold_left upd (rows_for id rows) n0)
    | None =>
        match rows_for id rows with
        | [] => get id nodes = None
        | r :: rest =>
            exists o, int (Row.ordinal r) = Ok o
              /\ get id nodes = Some (fold_left upd (r :: rest) (first_node id r o))
        end
    end.
Proof.
  induction rows as [|r rows IH]; intros acc nodes H id; simpl in H.
  - injection H as <-. simpl. destruct (get id acc); reflexivity.
  - destruct (process_row w acc r) as [acc'|e] eqn:Ep; simpl in H; [|discriminate].
    destruct (process_row_ok _ _ _ _ Ep) as (_ & o & Ho & ->).
    specialize (IH _ _ H id). rewrite rows_for_cons.
    destruct (String.eqb_spec (strip (Row.node_id r)) id) as [<-|Hne].
    + rewrite get_set_same in IH. unfold get_default in IH.
      destruct (get (strip (Row.node_id r)) acc) as [n0|]; simpl.
      * exact IH.
      * exists o. split; [exact Ho | exact IH].
    + rewrite get_set_other in IH by exact Hne. exact IH.
Qed.

Lemma accumulate_NoDup w rows : forall acc nodes,
  accumulate w acc rows = Ok nodes -> NoDup (keys acc) -> NoDup (keys nodes).
Proof.
  induction rows as [|r rows IH]; intros acc nodes H Hnd; simpl in H.
  - now injection H as <-.
  - destruct (process_row w acc r) as [acc'|e] eqn:Ep; simpl in H; [|discriminate].
    destruct (process_row_ok _ _ _ _ Ep) as (_ & o & _ & ->).
    apply (IH _ _ H). now apply NoDup_keys_set.
Qed.

(** The node of an id, once every row is read. *)
Lemma accumulate_node w rows nodes id n :
  accumulate w [] rows = Ok nodes ->
  get id nodes = Some n ->
  exists r rest o,
    rows_for id rows = r :: rest
    /\ int (Row.ordinal r) = Ok o
    /\ n = fold_left upd (r :: rest) (first_node id r o).
Proof.
  intros Ha Hg. pose proof (accumulate_get _ _ _ _ Ha id) as H.
  cbn [get] in H.
  destruct (rows_for id rows) as [|r rest]; [congruence|].
  destruct H as (o & Ho & Hn). exists r, rest, o.
  split; [reflexivity|]. split; [exact Ho | congruence].
Qed.

Lemma accumulate_id w rows nodes id n :
  accumulate w [] rows = Ok nodes -> In (id, n) nodes -> Node.id n = id.
Proof.
  intros Ha Hin.
  apply (In_get _ _ _ (accumulate_NoDup _ _ _ _ Ha (NoDup_nil _))) in Hin.
  destruct (accumulate_node _ _ _ _ _ Ha Hin) as (r & rest & o & _ & _ & ->).
  now rewrite (proj1 (fold_upd_fixed _ _)).
Qed.

Lemma accumulate_value w rows nodes n :
  accumulate w [] rows = Ok nodes -> In n (values nodes) ->
  get (Node.id n) nodes = Some n.
Proof.
  intros Ha Hin. unfold values in Hin. apply in_map_iff in Hin.
  destruct Hin as ([k n'] & Hn & Hin). simpl in Hn. subst n'.
  rewrite (accumulate_id _ _ _ _ _ Ha Hin).
  exact (In_get _ _ _ (accumulate_NoDup _ _ _ _ Ha (NoDup_nil _)) Hin).
Qed.

(** ** The document of a work *)

Lemma work_structure_ok w rows out :
  work_structure w rows = Ok out ->
  exists nodes,
    accumulate w [] rows = Ok nodes
    /\ check_parents nodes (values nodes) = Ok tt
    /\ out = Document.mk (levels_of (infer_levels nodes))
                         (sorted sort_key key_lt (values nodes)).
Proof.
  unfold work_structure.
  destruct (accumulate w [] rows) as [nodes|e]; simpl; [|discriminate].
  destruct (check_parents nodes (values nodes)) as [[]|e] eqn:Ec; simpl;
    [|discriminate].
  intros [= <-]. now exists nodes.
Qed.

Lemma document_nodes_perm w rows out nodes :
  work_structure w rows = Ok out ->
  accumulate w [] rows = Ok nodes ->
  Permutation (Document.nodes out) (values nodes).
Proof.
  intros H Ha. destruct (work_structure_ok _ _ _ H) as (nodes' & Ha' & _ & ->).
  assert (nodes' = nodes) by congruence. subst. simpl. apply sorted_perm.
Qed.

(** C3.  A node of the document of a work has its level and ordinal
    from the first row that bears its id: the trimmed [level_id] and the
    parsed [ordinal] of that row.  The rows of the id that follow leave
    level and ordinal as they are, and each of them still writes its
    non-empty parent, its title and its link into the node
    ([update_node], in the order of the rows; the last conjunct spells
    out what [update_node] does to each field). *)
Theorem first_row_fixes_level_and_ordinal w rows out n :
  work_structure w rows = Ok out ->
  In n (Document.nodes out) ->
  exists first later o,
    rows_for (Node.id n) rows = first :: later
    /\ int (Row.ordinal first) = Ok o
    /\ Node.level n = strip (Row.level_id first)
    /\ Node.ordinal n = o
    /\ n = fold_left upd later (update_node first (first_node (Node.id n) first o))
    /\ (forall r m,
          Node.level (update_node r m) = Node.level m
          /\ Node.ordinal (update_node r m) = Node.ordinal m
          /\ Node.parent (update_node r m)
             = (if truthy (strip (Row.parent_id r))
                then Some (strip (Row.parent_id r)) else Node.parent m)
          /\ Node.title (update_node r m)
             = (if truthy (strip (Row.lang r)) && truthy (strip (Row.title r))
                then Py.set (strip (Row.lang r)) (strip (Row.title r)) (Node.title m)
                else Node.title m)
          /\ Node.links (update_node r m)
             = (if truthy (strip (Row.site r)) && truthy (strip (Row.url r))
                then Some (Py.set (strip (Row.site r)) (strip (Row.url r))
                             (match Node.links m with Some l => l | None => [] end))
                else Node.links m)).
Proof.
  intros H Hin. destruct (work_structure_ok _ _ _ H) as (nodes & Ha & _ & Hout).
  apply (Permutation_in _ (document_nodes_perm _ _ _ _ H Ha)) in Hin.
  pose proof (accumulate_value _ _ _ _ Ha Hin) as Hg.
  destruct (accumulate_node _ _ _ _ _ Ha Hg) as (r & rest & o & Hr & Ho & Hn).
  exists r, rest, o. split; [exact Hr|]. split; [exact Ho|].
  destruct (fold_upd_fixed (r :: rest) (first_node (Node.id n) r o)) as (_ & Hl & Hord).
  rewrite <- Hn in Hl, Hord. simpl in Hl, Hord.
  split; [exact Hl|]. split; [exact Hord|]. split; [exact Hn|].
  intros r' m. destruct (update_node_fixed r' m) as (_ & G2 & G3).
  split; [exact G2|]. split; [exact G3|]. apply update_node_effect.
Qed.

(** ** Referential validation *)

Lemma check_parents_ok nodes l :
  check_parents nodes l = Ok tt
  <-> (forall n p, In n l -> Node.parent n = Some p -> mem p nodes = true).
Proof.
  induction l as [|m l IH]; simpl.
  - split; [intros _ n p [] | reflexivity].
  - destruct (Node.parent m) as [q|] eqn:Ep.
    + destruct (mem q nodes) eqn:Em; simpl.
      * rewrite IH. split.
        -- intros H n p [<-|Hin] Hp; [congruence | now apply (H n)].
        -- intros H n p Hin. apply H. now right.
      * split; [discriminate|].
        intros H. specialize (H m q (or_introl eq_refl) Ep). congruence.
    + rewrite IH. split.
      * intros H n p [<-|Hin] Hp; [congruence | now apply (H n)].
      * intros H n p Hin. apply H. now right.
Qed.

(** A failing validation stops at the first node whose parent is missing. *)
Lemma check_parents_err nodes l e :
  check_parents nodes l = Err e ->
  exists l1 n l2 p,
    l = l1 ++ n :: l2
    /\ check_parents nodes l1 = Ok tt
    /\ Node.parent n = Some p
    /\ mem p nodes = false
    /\ e = Exit ("Parent '" ++ p ++ "' not found (node " ++ Node.id n ++ ")")%string.
Proof.
  induction l as [|m l IH]; simpl; [discriminate|].
  assert (Hrest : check_parents nodes l = Err e ->
                  (forall p, Node.parent m = Some p -> mem p nodes = true) ->
                  exists l1 n l2 p,
                    m :: l = l1 ++ n :: l2
                    /\ check_parents nodes l1 = Ok tt
                    /\ Node.parent n = Some p
                    /\ mem p nodes = false
                    /\ e = Exit ("Parent '" ++ p ++ "' not found (node "
                                 ++ Node.id n ++ ")")%string).
  { intros H Hm. destruct (IH H) as (l1 & n & l2 & p & -> & H1 & H2 & H3 & H4).
    exists (m :: l1), n, l2, p. split; [reflexivity|].
    split; [|now repeat split].
    simpl. destruct (Node.parent m) as [q|]; [|exact H1].
    now rewrite (Hm q eq_refl). }
  destruct (Node.parent m) as [q|] eqn:Ep.
  - destruct (mem q nodes) eqn:Em; simpl.
    + intros H. apply Hrest; [exact H|]. now intros p [= <-].
    + intros [= <-]. exists [], m, l, q. now repeat split.
  - intros H. apply Hrest; [exact H | discriminate].
Qed.

Lemma accumulate_keys w rows nodes :
  accumulate w [] rows = Ok nodes -> keys nodes = map Node.id (values nodes).
Proof.
  intros Ha. unfold keys, values. rewrite map_map.
  apply map_ext_in. intros [k n] Hin. simpl. symmetry.
  exact (accumulate_id _ _ _ _ _ Ha Hin).
Qed.

Lemma mem_node_ids w rows nodes p :
  accumulate w [] rows = Ok nodes ->
  (mem p nodes = true <-> exists m, In m (values nodes) /\ Node.id m = p).
Proof.
  intros Ha. rewrite mem_In, (accumulate_keys _ _ _ Ha), in_map_iff.
  split; intros (m & H1 & H2); exists m; tauto.
Qed.

(** Once the rows of a work are read, either every recorded parent is
    the id of a node of the document that the work gets, or no document
    is built and the work fails on the first node, in the order of
    creation, whose recorded parent is the id of no node of the work. *)
Theorem parent_resolves_or_run_fails w rows nodes :
  accumulate w [] rows = Ok nodes ->
  (exists out,
      work_structure w rows = Ok out
      /\ Permutation (Document.nodes out) (values nodes)
      /\ forall n p, In n (Document.nodes out) -> Node.parent n = Some p ->
                     exists m, In m (Document.nodes out) /\ Node.id m = p)
  \/ (exists before_n n after_n p,
         values nodes = before_n ++ n :: after_n
         /\ (forall m q, In m before_n -> Node.parent m = Some q ->
                         exists m', In m' (values nodes) /\ Node.id m' = q)
         /\ Node.parent n = Some p
         /\ (forall m, In m (values nodes) -> Node.id m <> p)
         /\ work_structure w rows
            = Err (Exit ("Parent '" ++ p ++ "' not found (node "
                         ++ Node.id n ++ ")")%string)).
Proof.
  intros Ha. unfold work_structure. rewrite Ha. simpl.
  destruct (check_parents nodes (values nodes)) as [[]|e] eqn:Ec; simpl.
  - left. eexists. split; [reflexivity|]. simpl.
    assert (Hp : Permutation (sorted sort_key key_lt (values nodes)) (values nodes))
      by apply sorted_perm.
    split; [exact Hp|]. intros n p Hin Hpar.
    apply (Permutation_in _ Hp) in Hin.
    pose proof (proj1 (check_parents_ok _ _) Ec n p Hin Hpar) as Hm.
    apply (mem_node_ids _ _ _ p Ha) in Hm. destruct Hm as (m & Hm & Hid).
    exists m. split; [|exact Hid].
    apply (Permutation_in _ (Permutation_sym Hp)). exact Hm.
  - right. destruct (check_parents_err _ _ _ Ec)
      as (l1 & n & l2 & p & Hl & H1 & H2 & H3 & ->).
    exists l1, n, l2, p. split; [exact Hl|]. split.
    + intros m q Hin Hq. apply (mem_node_ids _ _ _ q Ha).
      exact (proj1 (check_parents_ok _ _) H1 m q Hin Hq).
    + split; [exact H2|]. split; [|reflexivity].
      intros m Hin Hid.
      assert (mem p nodes = true) by (apply (mem_node_ids _ _ _ p Ha); now exists m).
      congruence.
Qed.

(** C10.  Validation looks at membership only: it passes exactly when
    every recorded parent is the id of some node of the work.  When it
    passes the document is built from all the nodes as they are; a node
    that is its own parent stands in it with that parent, and for such a
    node the test of its own parent never fails. *)
Theorem validation_is_membership_only w rows nodes :
  accumulate w [] rows = Ok nodes ->
  (check_parents nodes (values nodes) = Ok tt
   <-> forall n p, In n (values nodes) -> Node.parent n = Some p ->
                   In p (map Node.id (values nodes)))
  /\ (check_parents nodes (values nodes) = Ok tt ->
      exists out,
        work_structure w rows = Ok out
        /\ Permutation (Document.nodes out) (values nodes)
        /\ forall n, In n (values nodes) -> Node.parent n = Some (Node.id n) ->
                     In n (Document.nodes out))
  /\ (forall n, In n (values nodes) -> Node.parent n = Some (Node.id n) ->
                check_parents nodes [n] = Ok tt).
Proof.
  intros Ha. split; [|split].
  - rewrite check_parents_ok. rewrite <- (accumulate_keys _ _ _ Ha).
    split; intros H n p Hin Hp; apply mem_In; now apply (H n).
  - intros Hc. unfold work_structure. rewrite Ha. simpl. rewrite Hc. simpl.
    eexists. split; [reflexivity|]. simpl.
    assert (Hp : Permutation (sorted sort_key key_lt (values nodes)) (values nodes))
      by apply sorted_perm.
    split; [exact Hp|]. intros n Hin _.
    apply (Permutation_in _ (Permutation_sym Hp)). exact Hin.
  - intros n Hin Hp. apply check_parents_ok. intros m p [<-|[]] Hq.
    apply (mem_node_ids _ _ _ p Ha). exists n. split; [exact Hin | congruence].
Qed.

(** C4, as claimed for every node, fails: of two nodes whose parents
    are both missing the report names the first only; the second has no
    document in which its parent would resolve, and the message names
    neither it nor its parent.  The message begins with a capital. *)
Lemma later_dangling_parent_is_not_reported :
  accumulate "W1" [] Sample2.two_dangling = Ok Sample2.two_dangling_nodes
  /\ In (Node.mk "n2" "L1" 2 [] (Some "gone2"%string) None)
        (values Sample2.two_dangling_nodes)
  /\ work_structure "W1" Sample2.two_dangling
     = Err (Exit "Parent 'gone1' not found (node n1)")
  /\ ~ names_parent_and_child "gone2" "n2"
        (Exit "Parent 'gone1' not found (node n1)")
  /\ Exit "Parent 'gone1' not found (node n1)"
     <> Exit "parent 'gone1' not found (node n1)".
Proof.
  split; [reflexivity|]. split; [right; left; reflexivity|].
  split; [reflexivity|]. split; [|discriminate].
  intros [H _]. vm_compute in H. discriminate H.
Qed.

(** C4, as the importer has it.  A work ends in one of three ways.
    Every recorded parent is the id of a node of the document that the
    work gets; or a row stops the loop and the work fails with the error
    of that row; or the rows are read, no document is built, and the
    work fails with [Parent 'P' not found (node N)], where [N] is the
    first node, in the order of creation, whose recorded parent [P] is
    the id of no node of the work.  Nodes after [N] are not looked at. *)
Theorem parent_resolves_or_first_dangling_is_reported w rows :
  (exists out,
      work_structure w rows = Ok out
      /\ forall n p, In n (Document.nodes out) -> Node.parent n = Some p ->
                     exists m, In m (Document.nodes out) /\ Node.id m = p)
  \/ (exists e, accumulate w [] rows = Err e /\ work_structure w rows = Err e)
  \/ (exists nodes before_n n after_n p,
         accumulate w [] rows = Ok nodes
         /\ values nodes = before_n ++ n :: after_n
         /\ (forall m q, In m before_n -> Node.parent m = Some q ->
                         exists m', In m' (values nodes) /\ Node.id m' = q)
         /\ Node.parent n = Some p
         /\ (forall m, In m (values nodes) -> Node.id m <> p)
         /\ work_structure w rows
            = Err (Exit ("Parent '" ++ p ++ "' not found (node "
                         ++ Node.id n ++ ")")%string)).
Proof.
  destruct (accumulate w [] rows) as [nodes|e] eqn:Ha.
  - destruct (parent_resolves_or_run_fails w rows nodes Ha)
      as [(out & H1 & _ & H2)|(l1 & n & l2 & p & H1 & H2 & H3 & H4 & H5)].
    + left. now exists out.
    + right. right. exists nodes, l1, n, l2, p. now repeat split.
  - right. left. exists e. split; [reflexivity|].
    unfold work_structure. now rewrite Ha.
Qed.

(** ** Level inference *)

(** The catalogue after the nodes [l]: every level met is a key, once,
    and is mapped to the least ordinal of the nodes that carry it. *)
Lemma infer_levels_spec (l : list Node.t) :
  NoDup (keys (fold_left level_step l []))
  /\ forall lvl,
       match get lvl (fold_left level_step l []) with
       | Some o =>
           (exists n, In n l /\ Node.level n = lvl /\ Node.ordinal n = o)
           /\ (forall n, In n l -> Node.level n = lvl -> (o <= Node.ordinal n)%Z)
       | None => forall n, In n l -> Node.level n <> lvl
       end.
Proof.
  induction l as [|m l [IHnd IH]] using rev_ind.
  - split; [constructor|]. intros lvl n [].
  - rewrite fold_left_app. simpl. unfold level_step at 1 3.
    split; [now apply NoDup_keys_set|].
    intros lvl. specialize (IH lvl).
    destruct (String.eqb_spec (Node.level m) lvl) as [<-|Hne].
    + rewrite get_set_same. unfold get_default.
      destruct (get (Node.level m) (fold_left level_step l [])) as [o|].
      * destruct IH as ((n0 & Hin0 & Hl0 & Ho0) & Hmin). split.
        -- destruct (Z.min_spec o (Node.ordinal m)) as [[_ ->]|[_ ->]].
           ++ exists n0. split; [apply in_or_app; now left | now split].
           ++ exists m. split; [apply in_or_app; right; now left | now split].
        -- intros n Hin Hl. apply in_app_or in Hin. destruct Hin as [Hin|[<-|[]]].
           ++ specialize (Hmin n Hin Hl). lia.
           ++ lia.
      * split.
        -- exists m. split; [apply in_or_app; right; now left|].
           split; [reflexivity | lia].
        -- intros n Hin Hl. apply in_app_or in Hin. destruct Hin as [Hin|[<-|[]]].
           ++ now specialize (IH n Hin).
           ++ lia.
    + rewrite get_set_other by exact Hne.
      destruct (get lvl (fold_left level_step l [])) as [o|].
      * destruct IH as ((n0 & Hin0 & Hl0 & Ho0) & Hmin). split.
        -- exists n0. split; [apply in_or_app; now left | now split].
        -- intros n Hin Hl. apply in_app_or in Hin. destruct Hin as [Hin|[<-|[]]].
           ++ now apply Hmin.
           ++ congruence.
      * intros n Hin. apply in_app_or in Hin. destruct Hin as [Hin|[<-|[]]].
        -- now apply IH.
        -- exact Hne.
Qed.

Lemma StronglySorted_map {A B : Type} (f : A -> B) (R : B -> B -> Prop) l :
  StronglySorted (fun x y => R (f x) (f y)) l -> StronglySorted R (map f l).
Proof.
  induction 1 as [|x l Hs IH Hall]; simpl; constructor.
  - exact IH.
  - apply Forall_forall. intros y Hy. apply in_map_iff in Hy.
    destruct Hy as (z & <- & Hz). rewrite Forall_forall in Hall. now apply Hall.
Qed.

Lemma levels_of_sorted (lo : dict Z) :
  StronglySorted (fun a b => (Level.ordinal a <= Level.ordinal b)%Z) (levels_of lo).
Proof.
  unfold levels_of. apply StronglySorted_map. simpl.
  apply sorted_sorted; intros x y.
  - rewrite Z.ltb_lt. lia.
  - rewrite Z.ltb_ge. lia.
  - lia.
Qed.

Lemma levels_of_In (lo : dict Z) L :
  In L (levels_of lo) <-> In (Level.id L, Level.ordinal L) lo.
Proof.
  unfold levels_of, items. rewrite in_map_iff. split.
  - intros ([k o] & <- & Hin). simpl.
    exact (Permutation_in _ (sorted_perm _ _ _) Hin).
  - intros Hin. exists (Level.id L, Level.ordinal L). split.
    + now destruct L.
    + exact (Permutation_in _ (Permutation_sym (sorted_perm _ _ _)) Hin).
Qed.

Lemma levels_of_ids (lo : dict Z) :
  Permutation (map Level.id (levels_of lo)) (keys lo).
Proof.
  unfold levels_of, keys, items. rewrite map_map. simpl.
  apply Permutation_map. apply sorted_perm.
Qed.

(** C6.  In the document of a work, every level carried by a node has
    one entry in the level list and every entry is the level of some
    node; the ordinal of an entry is the least ordinal among the nodes
    of its level; and the list ascends by these ordinals. *)
Theorem levels_are_minimum_ordinals w rows out :
  work_structure w rows = Ok out ->
  NoDup (map Level.id (Document.levels out))
  /\ (forall lvl, In lvl (map Level.id (Document.levels out))
                  <-> exists n, In n (Document.nodes out) /\ Node.level n = lvl)
  /\ (forall L, In L (Document.levels out) ->
        (exists n, In n (Document.nodes out)
                   /\ Node.level n = Level.id L
                   /\ Node.ordinal n = Level.ordinal L)
        /\ (forall n, In n (Document.nodes out) -> Node.level n = Level.id L ->
                      (Level.ordinal L <= Node.ordinal n)%Z))
  /\ StronglySorted (fun a b => (Level.ordinal a <= Level.ordinal b)%Z)
       (Document.levels out).
Proof.
  intros H. destruct (work_structure_ok _ _ _ H) as (nodes & Ha & _ & ->). simpl.
  destruct (infer_levels_spec (values nodes)) as [Hnd Hspec].
  fold (infer_levels nodes) in Hnd, Hspec.
  assert (Hp : forall n, In n (sorted sort_key key_lt (values nodes))
                         <-> In n (values nodes)).
  { intros n. split; apply Permutation_in;
      [apply sorted_perm | apply Permutation_sym, sorted_perm]. }
  split; [|split; [|split]].
  - apply (Permutation_NoDup (Permutation_sym (levels_of_ids _))). exact Hnd.
  - intros lvl. specialize (Hspec lvl). split.
    + intros Hin. apply (Permutation_in _ (levels_of_ids _)) in Hin.
      apply mem_In in Hin. unfold mem in Hin.
      destruct (get lvl (infer_levels nodes)); [|discriminate].
      destruct Hspec as ((n & Hn & Hl & _) & _). exists n. now rewrite Hp.
    + intros (n & Hn & Hl). rewrite Hp in Hn.
      apply (Permutation_in _ (Permutation_sym (levels_of_ids _))).
      apply mem_In. unfold mem.
      destruct (get lvl (infer_levels nodes)); [reflexivity|].
      now specialize (Hspec n Hn).
  - intros L HL. apply levels_of_In in HL. unfold items in HL.
    apply (In_get _ _ _ Hnd) in HL. specialize (Hspec (Level.id L)).
    rewrite HL in Hspec. destruct Hspec as ((n & Hn & Hl & Ho) & Hmin). split.
    + exists n. now rewrite Hp.
    + intros m Hm. rewrite Hp in Hm. now apply Hmin.
  - apply levels_of_sorted.
Qed.

(** ** The order of the nodes *)

Lemma key_lt_le x y : key_lt (sort_key x) (sort_key y) = true -> key_le x y.
Proof.
  unfold key_lt, sort_key, key_le. fold (parent_key x) (parent_key y).
  destruct (String.eqb_spec (parent_key x) (parent_key y)) as [Hp|Hp]; simpl.
  - destruct (Z.eqb_spec (Node.ordinal x) (Node.ordinal y)) as [Ho|Ho]; simpl.
    + rewrite str_lt_compare. intros Hlt. right. split; [exact Hp|].
      right. split; [exact Ho | congruence].
    + rewrite Z.ltb_lt. intros Hlt. right. split; [exact Hp | now left].
  - rewrite str_lt_compare. now left.
Qed.

Lemma key_not_lt_le x y : key_lt (sort_key y) (sort_key x) = false -> key_le x y.
Proof.
  unfold key_lt, sort_key, key_le. fold (parent_key x) (parent_key y).
  destruct (String.eqb_spec (parent_key y) (parent_key x)) as [Hp|Hp]; simpl.
  - destruct (Z.eqb_spec (Node.ordinal y) (Node.ordinal x)) as [Ho|Ho]; simpl.
    + intros Hlt. right. split; [now symmetry|]. right. split; [now symmetry|].
      rewrite string_compare_gt_lt, <- str_lt_compare. congruence.
    + rewrite Z.ltb_ge. intros Hge. right. split; [now symmetry|]. left. lia.
  - intros Hlt. left. apply string_compare_gt_lt.
    destruct (String.compare (parent_key y) (parent_key x)) eqn:E.
    + apply String.compare_eq_iff in E. contradiction.
    + apply str_lt_compare in E. congruence.
    + reflexivity.
Qed.

Lemma key_le_trans x y z : key_le x y -> key_le y z -> key_le x z.
Proof.
  unfold key_le.
  intros [H1|(E1 & H1)] [H2|(E2 & H2)].
  - left. now apply string_compare_lt_trans with (parent_key y).
  - left. now rewrite <- E2.
  - left. now rewrite E1.
  - right. split; [congruence|].
    destruct H1 as [H1|(O1 & H1)], H2 as [H2|(O2 & H2)].
    + left. lia.
    + left. lia.
    + left. lia.
    + right. split; [lia|].
      now apply string_compare_not_gt_trans with (Node.id y).
Qed.

Lemma truthy_nonempty s : truthy s = true -> s <> EmptyString.
Proof. destruct s; [discriminate | discriminate]. Qed.

Lemma fold_upd_parent rs : forall n,
  Node.parent n <> Some EmptyString ->
  Node.parent (fold_left upd rs n) <> Some EmptyString.
Proof.
  induction rs as [|r rs IH]; intros n Hn; simpl; [exact Hn|].
  apply IH. unfold upd. rewrite (proj1 (update_node_effect r n)).
  destruct (truthy (strip (Row.parent_id r))) eqn:E; [|exact Hn].
  apply truthy_nonempty in E. congruence.
Qed.

(** A recorded parent is never the empty string. *)
Lemma accumulate_parent w rows nodes n :
  accumulate w [] rows = Ok nodes -> In n (values nodes) ->
  Node.parent n <> Some EmptyString.
Proof.
  intros Ha Hin. pose proof (accumulate_value _ _ _ _ Ha Hin) as Hg.
  destruct (accumulate_node _ _ _ _ _ Ha Hg) as (r & rest & o & _ & _ & Hn).
  rewrite Hn. apply fold_upd_parent. discriminate.
Qed.

Lemma compare_empty_not_lt s : String.compare s EmptyString <> Lt.
Proof. destruct s; discriminate. Qed.

Lemma before_In {A : Type} (a b : A) l : before a b l -> In a l /\ In b l.
Proof.
  intros (l1 & l2 & l3 & ->). split; apply in_or_app; right.
  - now left.
  - right. apply in_or_app. right. now left.
Qed.

Lemma before_distinct {A B : Type} (f : A -> B) (a b : A) l :
  NoDup (map f l) -> before a b l -> f a <> f b.
Proof.
  intros Hnd (l1 & l2 & l3 & ->) Heq.
  rewrite map_app in Hnd. apply NoDup_app_remove_l in Hnd. simpl in Hnd.
  inversion Hnd as [|? ? Hnotin _]; subst. apply Hnotin.
  rewrite map_app. apply in_or_app. right. simpl. left. now symmetry.
Qed.

(** C7.  The node list of a document ascends by the composite key
    (parent or the empty string, ordinal, id), strings compared by code
    points and ordinals as numbers.  Hence, for a node [a] that stands
    before a node [b]: if [b] is a root so is [a]; if both have the same
    parent, the ordinal of [a] is at most that of [b]; and if the
    ordinals agree as well, the id of [a] is below the id of [b]. *)
Theorem nodes_sorted_by_composite_key w rows out :
  work_structure w rows = Ok out ->
  StronglySorted key_le (Document.nodes out)
  /\ forall a b, before a b (Document.nodes out) ->
       (Node.parent b = None -> Node.parent a = None)
       /\ (Node.parent a = Node.parent b ->
           (Node.ordinal a <= Node.ordinal b)%Z)
       /\ (Node.parent a = Node.parent b -> Node.ordinal a = Node.ordinal b ->
           str_lt (Node.id a) (Node.id b) = true).
Proof.
  intros H. destruct (work_structure_ok _ _ _ H) as (nodes & Ha & _ & Hout).
  pose proof (document_nodes_perm _ _ _ _ H Ha) as Hp.
  assert (Hs : StronglySorted key_le (Document.nodes out)).
  { rewrite Hout. simpl. apply sorted_sorted.
    - apply key_lt_le.
    - apply key_not_lt_le.
    - apply key_le_trans. }
  split; [exact Hs|]. intros a b Hab.
  pose proof (StronglySorted_before _ _ _ _ Hs Hab) as Hle.
  destruct (before_In _ _ _ Hab) as [Hina Hinb].
  apply (Permutation_in _ Hp) in Hina.
  pose proof (accumulate_parent _ _ _ _ Ha Hina) as Hna.
  assert (Hids : Node.id a <> Node.id b).
  { apply (before_distinct Node.id a b (Document.nodes out)); [|exact Hab].
    apply (Permutation_NoDup (Permutation_sym (Permutation_map Node.id Hp))).
    rewrite <- (accumulate_keys _ _ _ Ha).
    exact (accumulate_NoDup _ _ _ _ Ha (NoDup_nil _)). }
  unfold key_le, parent_key in Hle. split; [|split].
  - intros Hb. rewrite Hb in Hle.
    destruct (Node.parent a) as [p|]; [|reflexivity].
    destruct Hle as [Hlt|[-> _]]; [|congruence].
    now apply compare_empty_not_lt in Hlt.
  - intros Hpar. rewrite Hpar in Hle.
    destruct Hle as [Hlt|[_ [Hlt|[Heq _]]]]; [|lia|lia].
    now rewrite string_compare_refl in Hlt.
  - intros Hpar Hord. rewrite Hpar in Hle.
    destruct Hle as [Hlt|[_ [Hlt|[_ Hid]]]]; [|lia|].
    + now rewrite string_compare_refl in Hlt.
    + apply str_lt_compare.
      destruct (String.compare (Node.id a) (Node.id b)) eqn:E;
        [|reflexivity|congruence].
      apply String.compare_eq_iff in E. contradiction.
Qed.

(** ** Errors of a row *)

Lemma accumulate_app w l1 l2 : forall acc,
  accumulate w acc (l1 ++ l2)
  = (nodes <- accumulate w acc l1 ;; accumulate w nodes l2).
Proof.
  induction l1 as [|r l1 IH]; intros acc; simpl; [reflexivity|].
  destruct (process_row w acc r) as [acc'|e]; simpl; [apply IH | reflexivity].
Qed.

(** A loop that ends has met no bad row. *)
Lemma accumulate_rows_ok w rows : forall acc nodes,
  accumulate w acc rows = Ok nodes ->
  forall r, In r rows ->
    strip (Row.node_id r) <> EmptyString
    /\ exists o, parse_int (Row.ordinal r) = Some o.
Proof.
  induction rows as [|r0 rows IH]; intros acc nodes H r Hin; simpl in H.
  - destruct Hin.
  - destruct (process_row w acc r0) as [acc'|e] eqn:Ep; simpl in H; [|discriminate].
    destruct Hin as [<-|Hin]; [|exact (IH _ _ H r Hin)].
    destruct (process_row_ok _ _ _ _ Ep) as (Hid & o & Ho & _).
    split; [exact Hid|]. exists o. unfold int in Ho.
    destruct (parse_int (Row.ordinal r0)); [now injection Ho as -> | discriminate].
Qed.

Lemma accumulate_key_nonempty w rows nodes id n :
  accumulate w [] rows = Ok nodes -> get id nodes = Some n -> truthy id = true.
Proof.
  intros Ha Hg.
  destruct (accumulate_node _ _ _ _ _ Ha Hg) as (r & rest & o & Hr & _ & _).
  assert (Hin : In r (rows_for id rows)) by (rewrite Hr; now left).
  unfold rows_for in Hin. apply filter_In in Hin. destruct Hin as [Hin Heq].
  apply String.eqb_eq in Heq.
  destruct (accumulate_rows_ok _ _ _ _ Ha r Hin) as [Hne _].
  rewrite Heq in Hne. now destruct id.
Qed.

Lemma int_error s :
  parse_int s = None ->
  int s = Err (ValueError ("invalid literal for int() with base 10: "
                           ++ substring 0 200 (repr s))%string).
Proof. unfold int. now intros ->. Qed.

(** The row on which the loop breaks decides the outcome of the work. *)
Lemma work_structure_row_error w pre r post nodes e :
  accumulate w [] pre = Ok nodes ->
  process_row w nodes r = Err e ->
  work_structure w (pre ++ r :: post) = Err e.
Proof.
  intros Ha Hp. unfold work_structure. rewrite accumulate_app, Ha. simpl.
  now rewrite Hp.
Qed.

(** C9.  The ordinal of a row is parsed also when the node of the row
    exists already: a literal that is no integer ends the work, and with
    it the run, by the [ValueError] of [int]; a literal that is one is
    parsed and dropped, the node keeps its level and ordinal. *)
Theorem ordinal_parsed_on_every_row w pre r post nodes n :
  accumulate w [] pre = Ok nodes ->
  get (strip (Row.node_id r)) nodes = Some n ->
  (parse_int (Row.ordinal r) = None ->
   exists msg,
     int (Row.ordinal r) = Err (ValueError msg)
     /\ process_row w nodes r = Err (ValueError msg)
     /\ work_structure w (pre ++ r :: post) = Err (ValueError msg)
     /\ forall world0,
          build_work_structure w (pre ++ r :: post) world0
          = (world0, Err (ValueError msg)))
  /\ (forall o, parse_int (Row.ordinal r) = Some o ->
      process_row w nodes r
      = Ok (Py.set (strip (Row.node_id r)) (update_node r n) nodes)
      /\ Node.level (update_node r n) = Node.level n
      /\ Node.ordinal (update_node r n) = Node.ordinal n).
Proof.
  intros Ha Hg. pose proof (accumulate_key_nonempty _ _ _ _ _ Ha Hg) as Ht.
  split.
  - intros Hnone. eexists. split; [now apply int_error|].
    assert (Hp : process_row w nodes r
                 = Err (ValueError ("invalid literal for int() with base 10: "
                                    ++ substring 0 200 (repr (Row.ordinal r)))%string)).
    { unfold process_row. rewrite Ht. simpl. now rewrite (int_error _ Hnone). }
    split; [exact Hp|].
    pose proof (work_structure_row_error _ _ _ post _ _ Ha Hp) as Hw.
    split; [exact Hw|]. intros world0. unfold build_work_structure. now rewrite Hw.
  - intros o Ho. split.
    + unfold process_row, int, setdefault, mem, getitem.
      rewrite Ht, Ho. simpl. rewrite Hg. simpl. rewrite Hg. reflexivity.
    + destruct (update_node_fixed r n) as (_ & H2 & H3). now split.
Qed.

(** ** The run over the works *)

Lemma build_work_structure_Ok w rs w0 w1 u :
  build_work_structure w rs w0 = (w1, Ok u) ->
  exists out,
    work_structure w rs = Ok out
    /\ refuses w0 (out_path w) = None
    /\ w1 = mkWorld (Py.set (out_path w) out (files w0))
                    (stdout w0 ++ [("Wrote " ++ out_path w)%string])
                    (refuses w0).
Proof.
  unfold build_work_structure.
  destruct (work_structure w rs) as [out|e]; [|discriminate].
  destruct (refuses w0 (out_path w)) as [e|] eqn:E; [discriminate|].
  intros [= <- _]. now exists out.
Qed.

Lemma build_work_structure_writes w rs out w0 :
  work_structure w rs = Ok out ->
  refuses w0 (out_path w) = None ->
  build_work_structure w rs w0
  = (mkWorld (Py.set (out_path w) out (files w0))
             (stdout w0 ++ [("Wrote " ++ out_path w)%string])
             (refuses w0),
     Ok tt).
Proof. intros H1 H2. unfold build_work_structure. now rewrite H1, H2. Qed.

Lemma run_works_cons_Ok w rs gs w0 w1 u :
  run_works ((w, rs) :: gs) w0 = (w1, Ok u) ->
  exists out,
    work_structure w rs = Ok out
    /\ refuses w0 (out_path w) = None
    /\ run_works gs (mkWorld (Py.set (out_path w) out (files w0))
                             (stdout w0 ++ [("Wrote " ++ out_path w)%string])
                             (refuses w0))
       = (w1, Ok u).
Proof.
  simpl. destruct (build_work_structure w rs w0) as [w' [u'|e]] eqn:E;
    [|discriminate].
  destruct (build_work_structure_Ok _ _ _ _ _ E) as (out & H1 & H2 & ->).
  intros H. now exists out.
Qed.

Lemma run_works_app gs1 gs2 : forall w0,
  run_works (gs1 ++ gs2) w0
  = match run_works gs1 w0 with
    | (w1, Ok _) => run_works gs2 w1
    | (w1, Err e) => (w1, Err e)
    end.
Proof.
  induction gs1 as [|[w rs] gs1 IH]; intros w0; simpl; [reflexivity|].
  destruct (build_work_structure w rs w0) as [w1 [[]|e]]; [apply IH | reflexivity].
Qed.

(** The file system stays what it is. *)
Lemma run_works_refuses gs : forall w0,
  refuses (fst (run_works gs w0)) = refuses w0.
Proof.
  induction gs as [|[w rs] gs IH]; intros w0; simpl; [reflexivity|].
  unfold build_work_structure.
  destruct (work_structure w rs) as [out|e]; [|reflexivity].
  destruct (refuses w0 (out_path w)) as [e|]; [reflexivity|].
  now rewrite IH.
Qed.

Lemma run_works_stdout gs : forall w0 w1 u,
  run_works gs w0 = (w1, Ok u) ->
  stdout w1 = stdout w0 ++ wrote_lines (map fst gs).
Proof.
  induction gs as [|[w rs] gs IH]; intros w0 w1 u H.
  - simpl in H. injection H as <- _. simpl. now rewrite app_nil_r.
  - destruct (run_works_cons_Ok _ _ _ _ _ _ H) as (out & _ & _ & Hrest).
    rewrite (IH _ _ _ Hrest). simpl. now rewrite <- app_assoc.
Qed.

(** What a path holds after a run that succeeds: what it held, when no
    work has that path, and else the document of a work with that path. *)
Lemma run_works_get gs : forall w0 w1 u,
  run_works gs w0 = (w1, Ok u) ->
  forall k,
    ((forall w rs, In (w, rs) gs -> out_path w <> k)
     /\ get k (files w1) = get k (files w0))
    \/ (exists w rs out,
          In (w, rs) gs /\ out_path w = k
          /\ work_structure w rs = Ok out
          /\ get k (files w1) = Some out).
Proof.
  induction gs as [|[w rs] gs IH]; intros w0 w1 u H k.
  - simpl in H. injection H as <- _. left. split; [intros ? ? []|reflexivity].
  - destruct (run_works_cons_Ok _ _ _ _ _ _ H) as (out & Hout & _ & Hrest).
    destruct (IH _ _ _ Hrest k) as [[Hno Hget]|(w' & rs' & out' & Hin & Hk & Ho & Hg)].
    + simpl in Hget. destruct (string_dec (out_path w) k) as [Heq|Hne].
      * right. exists w, rs, out. split; [now left|]. split; [exact Heq|].
        split; [exact Hout|]. rewrite Hget, <- Heq. apply get_set_same.
      * left. split.
        -- intros w' rs' [[= <- <-]|Hin]; [exact Hne | now apply (Hno w' rs')].
        -- rewrite Hget. now apply get_set_other.
    + right. exists w', rs', out'. split; [now right|]. now repeat split.
Qed.

Lemma run_works_written gs w0 w1 u w rs :
  run_works gs w0 = (w1, Ok u) -> In (w, rs) gs ->
  mem (out_path w) (files w1) = true.
Proof.
  intros H Hin. unfold mem.
  destruct (run_works_get _ _ _ _ H (out_path w))
    as [[Hno _]|(w' & rs' & out' & _ & _ & _ & ->)]; [|reflexivity].
  exfalso. now apply (Hno w rs).
Qed.

(** The run stops at the first work that does not build. *)
Lemma run_works_first_error gs_pre w rs gs_post e w0 w1 :
  run_works gs_pre w0 = (w1, Ok tt) ->
  work_structure w rs = Err e ->
  run_works (gs_pre ++ (w, rs) :: gs_post) w0 = (w1, Err e).
Proof.
  intros Hpre He. rewrite run_works_app, Hpre. simpl.
  unfold build_work_structure. now rewrite He.
Qed.

(** C1, as the importer has it.  When the document of a work cannot be
    built, the run ends there with the error of that work, in the world
    that the works before it have left: nothing is written or printed
    for that work or for the works after it in the order of the groups,
    while each of the works before it has had its line [Wrote ...]
    printed and its file written. *)
Theorem failing_work_stops_the_run
        fieldnames rows gs_pre w rs gs_post e world0 world1 :
  validate_columns fieldnames = Ok tt ->
  items (group_rows rows) = gs_pre ++ (w, rs) :: gs_post ->
  run_works gs_pre world0 = (world1, Ok tt) ->
  work_structure w rs = Err e ->
  main fieldnames rows world0 = (world1, Err e)
  /\ stdout world1 = stdout world0 ++ wrote_lines (map fst gs_pre)
  /\ forall w' rs', In (w', rs') gs_pre ->
       mem (out_path w') (files world1) = true.
Proof.
  intros Hv Hg Hpre He. split; [|split].
  - unfold main. rewrite Hv, Hg. now apply run_works_first_error.
  - exact (run_works_stdout _ _ _ _ Hpre).
  - intros w' rs' Hin. exact (run_works_written _ _ _ _ _ _ Hpre Hin).
Qed.

(** C1, as claimed, fails: the second work of the sample has a row
    without node id, the run fails on it, and the file of the first work
    is there. *)
Lemma partial_output_on_failure :
  snd (main header Sample.second_work_fails empty_world)
  = Err (Exit "Empty node_id in work W2")
  /\ mem (out_path "W1")
         (files (fst (main header Sample.second_work_fails empty_world))) = true
  /\ ~ no_output_on_failure empty_world
         (main header Sample.second_work_fails empty_world).
Proof.
  split; [reflexivity|]. split; [reflexivity|].
  intros H. specialize (H _ eq_refl). discriminate H.
Qed.

Lemma run_works_Ok_builds gs : forall w0 w1 u,
  run_works gs w0 = (w1, Ok u) -> Forall builds gs.
Proof.
  induction gs as [|[w rs] gs IH]; intros w0 w1 u H; [constructor|].
  destruct (run_works_cons_Ok _ _ _ _ _ _ H) as (out & Hout & _ & Hrest).
  constructor; [now exists out | exact (IH _ _ _ Hrest)].
Qed.

Lemma main_Ok_builds fieldnames rows w0 w1 u :
  main fieldnames rows w0 = (w1, Ok u) -> Forall builds (items (group_rows rows)).
Proof.
  unfold main. destruct (validate_columns fieldnames); [|discriminate].
  apply run_works_Ok_builds.
Qed.

(** A run that succeeds has parsed the ordinal of every row. *)
Lemma main_Ok_rows fieldnames rows w0 w1 u r :
  main fieldnames rows w0 = (w1, Ok u) -> In r rows ->
  exists o, parse_int (Row.ordinal r) = Some o.
Proof.
  intros Hm Hin. apply main_Ok_builds in Hm. rewrite Forall_forall in Hm.
  assert (Hr : In r (rows_of_work (Row.work_id r) rows)).
  { unfold rows_of_work. apply filter_In. split; [exact Hin|].
    apply String.eqb_refl. }
  assert (Hg : In (Row.work_id r, rows_of_work (Row.work_id r) rows)
                  (items (group_rows rows))).
  { apply group_rows_In. split; [reflexivity|].
    intros Hnil. rewrite Hnil in Hr. destruct Hr. }
  destruct (Hm _ Hg) as [out Hout]. simpl in Hout.
  destruct (work_structure_ok _ _ _ Hout) as (nodes & Ha & _).
  exact (proj2 (accumulate_rows_ok _ _ _ _ Ha r Hr)).
Qed.

(** C2.  What the importer does on a row whose ordinal is no integer:
    [int] raises, nothing catches it, and the report is the line of the
    [ValueError], which quotes the literal and names neither the work
    nor the node; [fail], which the test of the node id two lines above
    and the test of the parents use, is not called. *)
Lemma ordinal_error_names_no_work_or_node :
  parse_int (Row.ordinal Sample.bad_ordinal_row) = None
  /\ snd (main header [Sample.bad_ordinal_row] empty_world)
     = Err (ValueError "invalid literal for int() with base 10: 'abc'")
  /\ stderr_line (ValueError "invalid literal for int() with base 10: 'abc'")
     = "ValueError: invalid literal for int() with base 10: 'abc'"%string
  /\ ~ names_work_and_node Sample.bad_ordinal_row
         (ValueError "invalid literal for int() with base 10: 'abc'").
Proof.
  split; [reflexivity|]. split; [reflexivity|]. split; [reflexivity|].
  intros [H _]. vm_compute in H. discriminate H.
Qed.

(** C8.  The grouping key is taken as it stands in the row: two work
    ids that differ by a blank make two groups and two files, while the
    same two strings are equal once trimmed. *)
Lemma work_id_is_grouped_untrimmed :
  map (fun r => strip (Row.work_id r)) Sample.blank_in_work_id
  = ["W1"; "W1"]%string
  /\ keys (group_rows Sample.blank_in_work_id) = ["W1"; " W1"]%string
  /\ keys (files (fst (main header Sample.blank_in_work_id empty_world)))
     = ["structures/W1.structure.yaml"; "structures/ W1.structure.yaml"]%string
  /\ snd (main header Sample.blank_in_work_id empty_world) = Ok tt.
Proof. repeat split; reflexivity. Qed.

(** ** The statements at the sample tables *)

Lemma failing_work_stops_the_run_sample :
  main header Sample.second_work_fails empty_world
  = (Sample2.after_first_work, Err (Exit "Empty node_id in work W2"))
  /\ stdout Sample2.after_first_work
     = stdout empty_world ++ wrote_lines (map fst [Sample2.first_work])
  /\ forall w' rs', In (w', rs') [Sample2.first_work] ->
       mem (out_path w') (files Sample2.after_first_work) = true.
Proof.
  apply (failing_work_stops_the_run header Sample.second_work_fails
           [Sample2.first_work]
           "W2" [Sample.row "W2" "" "" "L1" "1" "en" "Intro" "" ""] []
           (Exit "Empty node_id in work W2") empty_world
           Sample2.after_first_work).
  - reflexivity.
  - reflexivity.
  - reflexivity.
  - reflexivity.
Defined.

Lemma first_row_fixes_level_and_ordinal_sample :
  exists first later o,
    rows_for "N1" Sample.repeated_node = first :: later
    /\ int (Row.ordinal first) = Ok o
    /\ Node.level Sample.N1 = strip (Row.level_id first)
    /\ Node.ordinal Sample.N1 = o
    /\ Sample.N1
       = fold_left upd later (update_node first (first_node "N1" first o)).
Proof.
  destruct (first_row_fixes_level_and_ordinal "W1" Sample.repeated_node
              Sample.repeated_node_out Sample.N1 eq_refl
              (or_intror (or_introl eq_refl)))
    as (first & later & o & H1 & H2 & H3 & H4 & H5 & _).
  exists first, later, o. repeat split; assumption.
Defined.

Lemma parent_resolves_or_run_fails_sample :
  work_structure "W1" Sample.dangling
  = Err (Exit "Parent 'N9' not found (node N1)").
Proof.
  destruct (parent_resolves_or_run_fails "W1" Sample.dangling
              Sample.dangling_nodes eq_refl)
    as [(out & H & _)|(l1 & n & l2 & p & Hl & _ & Hp & _ & H)].
  - discriminate H.
  - destruct l1 as [|x [|y l1]]; try discriminate Hl.
    injection Hl as <- _. injection Hp as <-. exact H.
Defined.

Lemma levels_are_minimum_ordinals_sample :
  Document.levels Sample.forest_out
  = [Level.mk "sec" 1; Level.mk "ch" 1]
  /\ StronglySorted (fun a b => (Level.ordinal a <= Level.ordinal b)%Z)
       (Document.levels Sample.forest_out).
Proof.
  split; [reflexivity|].
  exact (proj2 (proj2 (proj2
    (levels_are_minimum_ordinals "W1" Sample.forest Sample.forest_out eq_refl)))).
Defined.

Lemma nodes_sorted_by_composite_key_sample :
  map Node.id (Document.nodes Sample.forest_out) = ["d"; "a"; "c"; "b"]%string
  /\ StronglySorted key_le (Document.nodes Sample.forest_out).
Proof.
  split; [reflexivity|].
  exact (proj1
    (nodes_sorted_by_composite_key "W1" Sample.forest Sample.forest_out eq_refl)).
Defined.

Lemma ordinal_parsed_on_every_row_sample :
  exists msg,
    work_structure "W1"
      ([Sample.row "W1" "N1" "" "L1" "1" "en" "Intro" "" ""]
       ++ Sample.row "W1" "N1" "" "L1" "one" "fr" "Intro-fr" "" "" :: [])
    = Err (ValueError msg).
Proof.
  destruct (ordinal_parsed_on_every_row "W1"
              [Sample.row "W1" "N1" "" "L1" "1" "en" "Intro" "" ""]
              (Sample.row "W1" "N1" "" "L1" "one" "fr" "Intro-fr" "" "") []
              [("N1"%string, Node.mk "N1" "L1" 1 [("en", "Intro")]%string None None)]
              (Node.mk "N1" "L1" 1 [("en", "Intro")]%string None None)
              eq_refl eq_refl) as [H _].
  destruct (H eq_refl) as (msg & _ & _ & Hw & _).
  exists msg. exact Hw.
Defined.

Lemma validation_is_membership_only_sample :
  exists out,
    work_structure "W1" Sample.cycle = Ok out
    /\ Permutation (Document.nodes out) (values Sample.cycle_nodes).
Proof.
  destruct (validation_is_membership_only "W1" Sample.cycle Sample.cycle_nodes
              eq_refl) as (_ & H & _).
  destruct (H eq_refl) as (out & H1 & H2 & _).
  exists out. split; assumption.
Defined.

(** ** Further properties of the importer *)

(** *** The header *)

Lemma in_names_In x l : in_names x l = true <-> In x l.
Proof.
  unfold in_names. rewrite existsb_exists. split.
  - intros (y & Hy & He). apply String.eqb_eq in He. now subst.
  - intros H. exists x. split; [exact H | apply String.eqb_refl].
Qed.

Lemma missing_columns_In fieldnames x :
  In x (filter (fun c => negb (in_names c fieldnames)) REQUIRED_COLUMNS)
  <-> In x REQUIRED_COLUMNS /\ ~ In x fieldnames.
Proof.
  rewrite filter_In, negb_true_iff, <- (in_names_In x fieldnames).
  destruct (in_names x fieldnames); intuition congruence.
Qed.

(** X1.  The header passes exactly when it holds each of the nine
    columns; their order and further columns do not matter. *)
Theorem validate_columns_accepts fieldnames :
  validate_columns fieldnames = Ok tt
  <-> forall c, In c REQUIRED_COLUMNS -> In c fieldnames.
Proof.
  unfold validate_columns.
  destruct (filter (fun c => negb (in_names c fieldnames)) REQUIRED_COLUMNS)
    as [|m ms] eqn:E.
  - split; [|reflexivity]. intros _ c Hc.
    destruct (in_dec string_dec c fieldnames) as [H|H]; [exact H|].
    assert (Hin : In c []) by (rewrite <- E; now apply missing_columns_In).
    destruct Hin.
  - split; [discriminate|]. intros H.
    assert (Hin : In m REQUIRED_COLUMNS /\ ~ In m fieldnames).
    { apply missing_columns_In. rewrite E. now left. }
    destruct Hin as [H1 H2]. now specialize (H m H1).
Qed.

Lemma StronglySorted_filter {A : Type} (R : A -> A -> Prop) (f : A -> bool) l :
  StronglySorted R l -> StronglySorted R (filter f l).
Proof.
  induction 1 as [|x l Hs IH Hall]; simpl; [constructor|].
  destruct (f x); [|exact IH]. constructor; [exact IH|].
  apply Forall_forall. intros y Hy. apply filter_In in Hy.
  rewrite Forall_forall in Hall. now apply Hall.
Qed.

Lemma REQUIRED_COLUMNS_sorted :
  StronglySorted (fun a b => str_lt a b = true) REQUIRED_COLUMNS.
Proof.
  unfold REQUIRED_COLUMNS.
  repeat (constructor; [|repeat (constructor; [reflexivity|]); constructor]).
  constructor.
Qed.

(** X2.  With a column missing the run stops before it looks at a row:
    nothing is written or printed whatever the rows are, and the message
    lists the missing columns, and only them, in ascending order. *)
Theorem missing_column_stops_before_rows fieldnames rows world0 c :
  In c REQUIRED_COLUMNS ->
  ~ In c fieldnames ->
  exists missing,
    main fieldnames rows world0
    = (world0, Err (Exit ("CSV is missing columns: "
                          ++ String.concat ", " missing)%string))
    /\ (forall x, In x missing <-> In x REQUIRED_COLUMNS /\ ~ In x fieldnames)
    /\ StronglySorted (fun a b => str_lt a b = true) missing.
Proof.
  intros Hc Hn.
  exists (filter (fun c => negb (in_names c fieldnames)) REQUIRED_COLUMNS).
  split; [|split].
  - unfold main, validate_columns.
    destruct (filter (fun c => negb (in_names c fieldnames)) REQUIRED_COLUMNS)
      as [|m ms] eqn:E; [|reflexivity].
    assert (Hin : In c []) by (rewrite <- E; now apply missing_columns_In).
    destruct Hin.
  - intros x. apply missing_columns_In.
  - apply StronglySorted_filter, REQUIRED_COLUMNS_sorted.
Qed.

(** *** Which rows the loop accepts *)

Lemma process_row_valid w nodes r o :
  strip (Row.node_id r) <> EmptyString ->
  parse_int (Row.ordinal r) = Some o ->
  process_row w nodes r
  = Ok (Py.set (strip (Row.node_id r))
          (update_node r
             (get_default (strip (Row.node_id r))
                (first_node (strip (Row.node_id r)) r o) nodes))
          nodes).
Proof.
  intros Hid Ho. unfold process_row, int. rewrite Ho.
  destruct (strip (Row.node_id r)) as [|c s] eqn:E; [contradiction|]. simpl.
  unfold setdefault, mem, getitem, get_default, first_node.
  destruct (get (String c s) nodes) as [n0|] eqn:G.
  - rewrite G. reflexivity.
  - rewrite get_set_same. simpl.
    rewrite (set_absent nodes _ (Node.mk _ _ _ _ _ _)) by exact G.
    rewrite set_split by exact G. symmetry. f_equal. now apply set_absent.
Qed.

Lemma accumulate_valid w rows : forall acc,
  Forall row_valid rows -> exists nodes, accumulate w acc rows = Ok nodes.
Proof.
  induction rows as [|r rows IH]; intros acc Hv; simpl.
  - now exists acc.
  - inversion Hv as [|? ? [Hid Ho] Hv']; subst.
    destruct (parse_int (Row.ordinal r)) as [o|] eqn:E; [|congruence].
    rewrite (process_row_valid w acc r o Hid E). simpl. now apply IH.
Qed.

Lemma accumulate_Ok_valid w rows nodes :
  accumulate w [] rows = Ok nodes -> Forall row_valid rows.
Proof.
  intros Ha. apply Forall_forall. intros r Hin.
  destruct (accumulate_rows_ok _ _ _ _ Ha r Hin) as [Hid [o Ho]].
  split; [exact Hid | congruence].
Qed.

(** X3.  The loop over the rows of a work ends without error exactly
    when every row has a node id that is not blank and an ordinal that
    [int] accepts; nothing else in a row can stop it. *)
Theorem accumulate_accepts w rows :
  (exists nodes, accumulate w [] rows = Ok nodes) <-> Forall row_valid rows.
Proof.
  split.
  - intros [nodes Ha]. exact (accumulate_Ok_valid _ _ _ Ha).
  - apply accumulate_valid.
Qed.

(** X4.  The first row that the loop does not accept decides how the
    work ends, whatever follows it and whatever parents the rows before
    it recorded: a blank node id gives [Empty node_id in work W], also
    when the ordinal of that row is no integer; otherwise the ordinal
    gives the [ValueError] of [int]. *)
Theorem first_bad_row_decides w pre r post :
  Forall row_valid pre ->
  ~ row_valid r ->
  work_structure w (pre ++ r :: post)
  = Err (match strip (Row.node_id r) with
         | EmptyString => Exit ("Empty node_id in work " ++ w)%string
         | String _ _ =>
             ValueError ("invalid literal for int() with base 10: "
                         ++ substring 0 200 (repr (Row.ordinal r)))%string
         end).
Proof.
  intros Hpre Hbad.
  destruct (accumulate_valid w pre [] Hpre) as [nodes Ha].
  apply (work_structure_row_error _ _ _ _ _ _ Ha).
  unfold process_row.
  destruct (strip (Row.node_id r)) as [|c s] eqn:E; [reflexivity|]. simpl.
  destruct (parse_int (Row.ordinal r)) as [o|] eqn:Ho.
  - exfalso. apply Hbad. split; [rewrite E; discriminate | congruence].
  - now rewrite (int_error _ Ho).
Qed.

Lemma first_bad_row_decides_sample :
  work_structure "W1" (Sample2.blank_id_after_dangling ++ Sample2.blank_id_row :: [])
  = Err (Exit "Empty node_id in work W1").
Proof.
  apply (first_bad_row_decides "W1" Sample2.blank_id_after_dangling
           Sample2.blank_id_row []).
  - constructor; [|constructor]. split; discriminate.
  - intros [H _]. apply H. reflexivity.
Defined.

Lemma missing_column_stops_before_rows_sample :
  exists missing,
    main Sample2.short_header Sample.forest empty_world
    = (empty_world, Err (Exit ("CSV is missing columns: "
                               ++ String.concat ", " missing)%string))
    /\ (forall x, In x missing
                  <-> In x REQUIRED_COLUMNS /\ ~ In x Sample2.short_header)
    /\ StronglySorted (fun a b => str_lt a b = true) missing.
Proof.
  apply (missing_column_stops_before_rows Sample2.short_header Sample.forest
           empty_world "site"%string).
  - unfold REQUIRED_COLUMNS. simpl. tauto.
  - unfold Sample2.short_header. simpl.
    intros [H|[H|[H|[H|[H|[H|[H|[]]]]]]]]; discriminate H.
Defined.

(** *** Order of first occurrence *)

Lemma first_seen_In l x : In x (first_seen l) <-> In x l.
Proof.
  induction l as [|y l IH]; simpl; [tauto|].
  rewrite filter_In, IH, negb_true_iff, String.eqb_neq.
  destruct (string_dec y x) as [->|Hne]; [tauto|].
  split; [tauto|]. intros [H|H]; [tauto|]. right. split; [exact H | congruence].
Qed.

Lemma first_seen_snoc l x :
  first_seen (l ++ [x])
  = if in_names x l then first_seen l else first_seen l ++ [x].
Proof.
  induction l as [|y l IH]; simpl; [reflexivity|].
  rewrite IH. unfold in_names in *. simpl.
  destruct (String.eqb_spec x y) as [->|Hne]; simpl.
  - destruct (existsb (String.eqb y) l); [reflexivity|].
    rewrite filter_app. simpl. rewrite String.eqb_refl. simpl.
    now rewrite app_nil_r.
  - destruct (existsb (String.eqb x) l); [reflexivity|].
    rewrite filter_app. simpl.
    apply String.eqb_neq in Hne. now rewrite Hne.
Qed.

Lemma keys_set {V : Type} (d : dict V) k v :
  keys (Py.set k v d) = if mem k d then keys d else keys d ++ [k].
Proof.
  unfold mem. destruct (get k d) eqn:E.
  - apply keys_set_present. congruence.
  - rewrite set_absent by exact E. unfold keys. now rewrite map_app.
Qed.

Lemma mem_first_seen {V : Type} (d : dict V) l k :
  keys d = first_seen l -> mem k d = in_names k l.
Proof.
  intros H. apply eq_true_iff_eq.
  now rewrite mem_In, H, first_seen_In, in_names_In.
Qed.

(** The groups stand in the order in which their work ids first occur. *)
Lemma group_rows_keys rows :
  keys (group_rows rows) = first_seen (map Row.work_id rows).
Proof.
  induction rows as [|r rows IH] using rev_ind; [reflexivity|].
  rewrite group_rows_snoc, map_app. simpl. rewrite first_seen_snoc.
  unfold append_row. rewrite keys_set, (mem_first_seen _ _ _ IH), IH.
  reflexivity.
Qed.

(** The nodes are created in the order in which their ids first occur. *)
Lemma accumulate_keys_order w rows : forall nodes,
  accumulate w [] rows = Ok nodes ->
  keys nodes = first_seen (map trimmed_node_id rows).
Proof.
  induction rows as [|r rows IH] using rev_ind; intros nodes H.
  - simpl in H. now injection H as <-.
  - rewrite accumulate_app in H.
    destruct (accumulate w [] rows) as [nodes0|e]; simpl in H; [|discriminate].
    destruct (process_row w nodes0 r) as [nodes1|e] eqn:Ep; simpl in H;
      [|discriminate].
    injection H as <-.
    destruct (process_row_ok _ _ _ _ Ep) as (_ & o & _ & ->).
    specialize (IH nodes0 eq_refl).
    rewrite map_app. simpl. rewrite first_seen_snoc, keys_set.
    rewrite (mem_first_seen _ _ _ IH), IH. reflexivity.
Qed.

(** *** The nodes of a document *)

(** X5.  A document has one node for every node id that the rows of the
    work bear once trimmed, and no other: the ids of its nodes are
    pairwise distinct and are, up to their order, the trimmed node ids
    of the rows, each taken once. *)
Theorem one_node_per_node_id w rows out :
  work_structure w rows = Ok out ->
  NoDup (map Node.id (Document.nodes out))
  /\ Permutation (map Node.id (Document.nodes out))
                 (first_seen (map trimmed_node_id rows))
  /\ forall id, In id (map Node.id (Document.nodes out))
                <-> exists r, In r rows /\ strip (Row.node_id r) = id.
Proof.
  intros H. destruct (work_structure_ok _ _ _ H) as (nodes & Ha & _ & _).
  pose proof (Permutation_map Node.id (document_nodes_perm _ _ _ _ H Ha)) as Hp.
  rewrite <- (accumulate_keys _ _ _ Ha) in Hp.
  assert (Hp' : Permutation (map Node.id (Document.nodes out))
                            (first_seen (map trimmed_node_id rows))).
  { now rewrite <- (accumulate_keys_order _ _ _ Ha). }
  split; [|split; [exact Hp'|]].
  - apply (Permutation_NoDup (Permutation_sym Hp)).
    exact (accumulate_NoDup _ _ _ _ Ha (NoDup_nil _)).
  - intros id. split.
    + intros Hin. apply (Permutation_in _ Hp') in Hin.
      apply first_seen_In, in_map_iff in Hin.
      destruct Hin as (r & Hr & Hin). now exists r.
    + intros (r & Hin & Hr).
      apply (Permutation_in _ (Permutation_sym Hp')).
      apply first_seen_In, in_map_iff. now exists r.
Qed.

Lemma last_where_snoc {A : Type} (f : Row.t -> option A) rs r :
  last_where f (rs ++ [r])
  = match f r with Some a => Some a | None => last_where f rs end.
Proof. unfold last_where. now rewrite fold_left_app. Qed.

Lemma fold_upd_snoc rs r n : fold_left upd (rs ++ [r]) n = upd (fold_left upd rs n) r.
Proof. now rewrite fold_left_app. Qed.

Lemma fold_upd_parent_last rs n0 :
  Node.parent (fold_left upd rs n0)
  = match last_where parent_of_row rs with
    | Some p => Some p
    | None => Node.parent n0
    end.
Proof.
  induction rs as [|r rs IH] using rev_ind; [reflexivity|].
  rewrite fold_upd_snoc, last_where_snoc. unfold upd at 1.
  rewrite (proj1 (update_node_effect r _)), IH. unfold parent_of_row.
  destruct (truthy (strip (Row.parent_id r))); reflexivity.
Qed.

Lemma fold_upd_title_last lang rs n0 :
  get lang (Node.title (fold_left upd rs n0))
  = match last_where (title_of_row lang) rs with
    | Some t => Some t
    | None => get lang (Node.title n0)
    end.
Proof.
  induction rs as [|r rs IH] using rev_ind; [reflexivity|].
  rewrite fold_upd_snoc, last_where_snoc. unfold upd at 1.
  rewrite (proj1 (proj2 (update_node_effect r _))). unfold title_of_row.
  destruct (truthy (strip (Row.lang r)) && truthy (strip (Row.title r))); simpl.
  - destruct (String.eqb_spec (strip (Row.lang r)) lang) as [<-|Hne].
    + apply get_set_same.
    + rewrite get_set_other by exact Hne. exact IH.
  - exact IH.
Qed.

Lemma fold_upd_title_NoDup rs : forall n0,
  NoDup (keys (Node.title n0)) -> NoDup (keys (Node.title (fold_left upd rs n0))).
Proof.
  induction rs as [|r rs IH]; intros n0 H; simpl; [exact H|].
  apply IH. unfold upd. rewrite (proj1 (proj2 (update_node_effect r n0))).
  destruct (truthy (strip (Row.lang r)) && truthy (strip (Row.title r)));
    [now apply NoDup_keys_set | exact H].
Qed.

(** The node of a document, from the rows of its id. *)
Lemma document_node w rows out n :
  work_structure w rows = Ok out ->
  In n (Document.nodes out) ->
  exists first later o,
    rows_for (Node.id n) rows = first :: later
    /\ n = fold_left upd (first :: later) (first_node (Node.id n) first o).
Proof.
  intros H Hin. destruct (work_structure_ok _ _ _ H) as (nodes & Ha & _ & _).
  apply (Permutation_in _ (document_nodes_perm _ _ _ _ H Ha)) in Hin.
  pose proof (accumulate_value _ _ _ _ Ha Hin) as Hg.
  destruct (accumulate_node _ _ _ _ _ Ha Hg) as (r & rest & o & Hr & _ & Hn).
  now exists r, rest, o.
Qed.

(** X6.  The parent of a node is the trimmed [parent_id] of the last row
    of the node that has one; a node none of whose rows has one is a
    root. *)
Theorem parent_is_last_given w rows out n :
  work_structure w rows = Ok out ->
  In n (Document.nodes out) ->
  Node.parent n = last_where parent_of_row (rows_for (Node.id n) rows).
Proof.
  intros H Hin.
  destruct (document_node _ _ _ _ H Hin) as (first & later & o & -> & Hn).
  rewrite Hn at 1. rewrite fold_upd_parent_last.
  now destruct (last_where parent_of_row (first :: later)).
Qed.

(** X7.  The title of a node in a language is the trimmed title of the
    last row of the node that gives one in that language (a row gives
    one when its [lang] and its [title] are both not blank); a language
    in which no row gives a title is no key, and no language is a key
    twice. *)
Theorem title_is_last_given w rows out n :
  work_structure w rows = Ok out ->
  In n (Document.nodes out) ->
  NoDup (keys (Node.title n))
  /\ forall lang,
       get lang (Node.title n)
       = last_where (title_of_row lang) (rows_for (Node.id n) rows).
Proof.
  intros H Hin.
  destruct (document_node _ _ _ _ H Hin) as (first & later & o & -> & Hn).
  split.
  - rewrite Hn. apply fold_upd_title_NoDup. constructor.
  - intros lang. rewrite Hn at 1. rewrite fold_upd_title_last.
    now destruct (last_where (title_of_row lang) (first :: later)).
Qed.

Lemma set_not_nil {V : Type} (d : dict V) k v : Py.set k v d <> [].
Proof. destruct d as [|[k' v'] d]; simpl; [|destruct (String.eqb k' k)]; discriminate. Qed.

Lemma fold_upd_links_none rs n0 :
  Node.links (fold_left upd rs n0) = None
  <-> Node.links n0 = None /\ forall r, In r rs -> has_link r = false.
Proof.
  induction rs as [|r rs IH] using rev_ind.
  - simpl. split; [intros H; split; [exact H | intros r []] | tauto].
  - rewrite fold_upd_snoc. unfold upd at 1.
    rewrite (proj2 (proj2 (update_node_effect r _))). fold (has_link r).
    destruct (has_link r) eqn:E.
    + split; [discriminate|]. intros [_ H].
      assert (Hr : In r (rs ++ [r])) by (apply in_or_app; right; now left).
      specialize (H r Hr). congruence.
    + rewrite IH. split; intros [H1 H2]; (split; [exact H1|]).
      * intros r' Hin. apply in_app_or in Hin.
        destruct Hin as [Hin|[<-|[]]]; [now apply H2 | exact E].
      * intros r' Hin. apply H2, in_or_app. now left.
Qed.

Lemma fold_upd_links_last site rs n0 :
  match Node.links (fold_left upd rs n0) with
  | Some l => get site l
  | None => None
  end
  = match last_where (link_of_row site) rs with
    | Some u => Some u
    | None => match Node.links n0 with Some l => get site l | None => None end
    end.
Proof.
  induction rs as [|r rs IH] using rev_ind; [reflexivity|].
  rewrite fold_upd_snoc, last_where_snoc. unfold upd at 1.
  rewrite (proj2 (proj2 (update_node_effect r _))). unfold link_of_row.
  destruct (truthy (strip (Row.site r)) && truthy (strip (Row.url r))); simpl.
  - destruct (String.eqb_spec (strip (Row.site r)) site) as [<-|Hne].
    + apply get_set_same.
    + simpl. rewrite get_set_other by exact Hne.
      etransitivity; [|exact IH].
      now destruct (Node.links (fold_left upd rs n0)).
  - exact IH.
Qed.

Lemma fold_upd_links_shape rs : forall n0,
  (forall l, Node.links n0 = Some l -> l <> [] /\ NoDup (keys l)) ->
  forall l, Node.links (fold_left upd rs n0) = Some l -> l <> [] /\ NoDup (keys l).
Proof.
  induction rs as [|r rs IH]; intros n0 H0; simpl; [exact H0|].
  apply IH. intros l. unfold upd.
  rewrite (proj2 (proj2 (update_node_effect r n0))).
  destruct (truthy (strip (Row.site r)) && truthy (strip (Row.url r)));
    [|apply H0].
  intros [= <-]. split; [apply set_not_nil|]. apply NoDup_keys_set.
  destruct (Node.links n0) as [l0|]; [now apply H0 | constructor].
Qed.

(** X8.  A node has links exactly when one of its rows gives a link (its
    [site] and its [url] both not blank); the mapping is then not empty,
    no site is a key twice, and the url of a site is the trimmed url of
    the last row of the node that gives a link to that site. *)
Theorem links_are_lazy_and_last_given w rows out n :
  work_structure w rows = Ok out ->
  In n (Document.nodes out) ->
  (Node.links n = None
   <-> forall r, In r (rows_for (Node.id n) rows) -> has_link r = false)
  /\ forall l, Node.links n = Some l ->
       l <> [] /\ NoDup (keys l)
       /\ forall site,
            get site l = last_where (link_of_row site) (rows_for (Node.id n) rows).
Proof.
  intros H Hin.
  destruct (document_node _ _ _ _ H Hin) as (first & later & o & -> & Hn).
  split.
  - rewrite Hn at 1. rewrite fold_upd_links_none. simpl. tauto.
  - intros l Hl.
    assert (Hshape : l <> [] /\ NoDup (keys l)).
    { rewrite Hn in Hl. revert l Hl. apply fold_upd_links_shape.
      simpl. discriminate. }
    destruct Hshape as [H1 H2]. split; [exact H1|]. split; [exact H2|].
    intros site.
    pose proof (fold_upd_links_last site (first :: later)
                  (first_node (Node.id n) first o)) as Hlast.
    rewrite <- Hn, Hl in Hlast. rewrite Hlast.
    now destruct (last_where (link_of_row site) (first :: later)).
Qed.

Lemma parent_is_last_given_sample :
  Node.parent Sample.N1
  = last_where parent_of_row (rows_for (Node.id Sample.N1) Sample.repeated_node).
Proof.
  apply (parent_is_last_given "W1" Sample.repeated_node Sample.repeated_node_out).
  - reflexivity.
  - right. left. reflexivity.
Defined.

Lemma title_is_last_given_sample :
  NoDup (keys (Node.title Sample.N1))
  /\ forall lang,
       get lang (Node.title Sample.N1)
       = last_where (title_of_row lang)
           (rows_for (Node.id Sample.N1) Sample.repeated_node).
Proof.
  apply (title_is_last_given "W1" Sample.repeated_node Sample.repeated_node_out).
  - reflexivity.
  - right. left. reflexivity.
Defined.

Lemma links_are_lazy_and_last_given_sample :
  (Node.links Sample.N1 = None
   <-> forall r, In r (rows_for (Node.id Sample.N1) Sample.repeated_node) ->
                 has_link r = false)
  /\ forall l, Node.links Sample.N1 = Some l ->
       l <> [] /\ NoDup (keys l)
       /\ forall site,
            get site l
            = last_where (link_of_row site)
                (rows_for (Node.id Sample.N1) Sample.repeated_node).
Proof.
  apply (links_are_lazy_and_last_given "W1" Sample.repeated_node
           Sample.repeated_node_out).
  - reflexivity.
  - right. left. reflexivity.
Defined.

Lemma one_node_per_node_id_sample :
  NoDup (map Node.id (Document.nodes Sample.repeated_node_out))
  /\ Permutation (map Node.id (Document.nodes Sample.repeated_node_out))
                 (first_seen (map trimmed_node_id Sample.repeated_node))
  /\ forall id, In id (map Node.id (Document.nodes Sample.repeated_node_out))
                <-> exists r, In r Sample.repeated_node /\ strip (Row.node_id r) = id.
Proof.
  apply (one_node_per_node_id "W1" Sample.repeated_node Sample.repeated_node_out).
  reflexivity.
Defined.

(** *** Which works build *)

Lemma accumulate_parent_last w rows nodes id n :
  accumulate w [] rows = Ok nodes ->
  get id nodes = Some n ->
  Node.parent n = last_where parent_of_row (rows_for id rows)
  /\ exists r, In r rows /\ trimmed_node_id r = id.
Proof.
  intros Ha Hg.
  destruct (accumulate_node _ _ _ _ _ Ha Hg) as (first & later & o & Hr & _ & Hn).
  split.
  - rewrite Hr, Hn, fold_upd_parent_last.
    now destruct (last_where parent_of_row (first :: later)).
  - exists first.
    assert (Hin : In first (rows_for id rows)) by (rewrite Hr; now left).
    unfold rows_for in Hin. apply filter_In in Hin. destruct Hin as [Hin He].
    split; [exact Hin | now apply String.eqb_eq].
Qed.

Lemma accumulate_mem_rows w rows nodes p :
  accumulate w [] rows = Ok nodes ->
  (mem p nodes = true <-> exists r, In r rows /\ trimmed_node_id r = p).
Proof.
  intros Ha. rewrite mem_In, (accumulate_keys_order _ _ _ Ha), first_seen_In,
    in_map_iff.
  split; intros (r & H1 & H2); exists r; tauto.
Qed.

(** X9.  The document of a work is built exactly when the loop accepts
    every row and the parent that each node ends up with is the trimmed
    node id of some row of the work.  A parent given by an earlier row
    of a node and replaced by a later one is not looked at. *)
Theorem work_structure_accepts w rows :
  (exists out, work_structure w rows = Ok out)
  <-> Forall row_valid rows
      /\ forall r p,
           In r rows ->
           last_where parent_of_row (rows_for (trimmed_node_id r) rows) = Some p ->
           exists r', In r' rows /\ trimmed_node_id r' = p.
Proof.
  split.
  - intros [out H]. destruct (work_structure_ok _ _ _ H) as (nodes & Ha & Hc & _).
    split; [exact (accumulate_Ok_valid _ _ _ Ha)|].
    intros r p Hin Hp.
    assert (Hm : mem (trimmed_node_id r) nodes = true)
      by (apply (accumulate_mem_rows _ _ _ _ Ha); now exists r).
    unfold mem in Hm.
    destruct (get (trimmed_node_id r) nodes) as [n|] eqn:Hg; [|discriminate].
    destruct (accumulate_parent_last _ _ _ _ _ Ha Hg) as [Hpar _].
    apply (accumulate_mem_rows _ _ _ p Ha).
    apply (proj1 (check_parents_ok _ _) Hc n p).
    + apply get_In in Hg. now apply (in_map snd) in Hg.
    + congruence.
  - intros [Hv Hp]. destruct (accumulate_valid w rows [] Hv) as [nodes Ha].
    unfold work_structure. rewrite Ha. simpl.
    assert (Hc : check_parents nodes (values nodes) = Ok tt).
    { apply check_parents_ok. intros n p Hin Hpar.
      pose proof (accumulate_value _ _ _ _ Ha Hin) as Hg.
      destruct (accumulate_parent_last _ _ _ _ _ Ha Hg) as [Hlast (r & Hr & Hid)].
      apply (accumulate_mem_rows _ _ _ p Ha).
      apply (Hp r p Hr). rewrite Hid. congruence. }
    rewrite Hc. simpl. eexists. reflexivity.
Qed.

(** *** The run as a whole *)

Lemma group_of_work_id rows w :
  In w (map Row.work_id rows)
  <-> In (w, rows_of_work w rows) (items (group_rows rows)).
Proof.
  rewrite group_rows_In. split.
  - intros Hw. split; [reflexivity|]. apply in_map_iff in Hw.
    destruct Hw as (r & <- & Hr). intros Hnil.
    assert (Hin : In r (rows_of_work (Row.work_id r) rows)).
    { apply filter_In. split; [exact Hr | apply String.eqb_refl]. }
    rewrite Hnil in Hin. destruct Hin.
  - intros [_ Hne]. destruct (rows_of_work w rows) as [|r rs] eqn:E; [congruence|].
    assert (Hin : In r (rows_of_work w rows)) by (rewrite E; now left).
    apply filter_In in Hin. destruct Hin as [Hin He].
    apply String.eqb_eq in He. subst w.
    apply in_map_iff. exists r. split; [reflexivity | exact Hin].
Qed.

Lemma run_works_succeeds gs : forall w0,
  (exists w1, run_works gs w0 = (w1, Ok tt))
  <-> Forall (fun g => builds g /\ refuses w0 (out_path (fst g)) = None) gs.
Proof.
  induction gs as [|[w rs] gs IH]; intros w0.
  - split; [constructor | intros _; now exists w0].
  - split.
    + intros [w1 H].
      destruct (run_works_cons_Ok _ _ _ _ _ _ H) as (out & Hout & Hr & Hrest).
      constructor; [split; [now exists out | exact Hr]|].
      apply (IH (mkWorld (Py.set (out_path w) out (files w0))
                         (stdout w0 ++ [("Wrote " ++ out_path w)%string])
                         (refuses w0))).
      now exists w1.
    + intros H. inversion H as [|? ? [[out Hout] Hr] H']; subst.
      simpl in Hout, Hr. simpl.
      rewrite (build_work_structure_writes _ _ _ _ Hout Hr).
      apply (IH (mkWorld (Py.set (out_path w) out (files w0))
                         (stdout w0 ++ [("Wrote " ++ out_path w)%string])
                         (refuses w0))).
      exact H'.
Qed.

(** The output path at some work ids: a leading [./] and a doubled
    slash are dropped, a leading slash leaves the output directory. *)
Lemma out_path_samples :
  out_path "W1" = "structures/W1.structure.yaml"%string
  /\ out_path "./W1" = "structures/W1.structure.yaml"%string
  /\ out_path "a//b" = "structures/a/b.structure.yaml"%string
  /\ out_path "/tmp/x" = "/tmp/x.structure.yaml"%string
  /\ out_path "../x" = "structures/../x.structure.yaml"%string.
Proof. repeat split; reflexivity. Qed.

(** A work whose directory is missing ends the run with the error of
    [open], and two work ids with one path leave one file, which holds
    the document of the later one. *)
Lemma write_samples :
  main header Sample2.work_in_directory Sample2.no_directory_a
  = (Sample2.no_directory_a,
     Err (OSError "FileNotFoundError"
            "[Errno 2] No such file or directory: 'structures/a/b.structure.yaml'"))
  /\ snd (main header Sample2.same_path empty_world) = Ok tt
  /\ files (fst (main header Sample2.same_path empty_world))
     = [("structures/W1.structure.yaml"%string,
         Sample.document_of "./W1"
           [Sample.row "./W1" "N2" "" "L1" "2" "" "" "" ""])].
Proof. repeat split; reflexivity. Qed.

(** X10.  The run succeeds exactly when the header passes, the document
    of every work builds, and the file system accepts the output path of
    every work. *)
Theorem main_accepts fieldnames rows world0 :
  (exists world1, main fieldnames rows world0 = (world1, Ok tt))
  <-> validate_columns fieldnames = Ok tt
      /\ forall w, In w (map Row.work_id rows) ->
           (exists out, work_structure w (rows_of_work w rows) = Ok out)
           /\ refuses world0 (out_path w) = None.
Proof.
  assert (Hgroups :
            Forall (fun g => builds g /\ refuses world0 (out_path (fst g)) = None)
                   (items (group_rows rows))
            <-> forall w, In w (map Row.work_id rows) ->
                  (exists out, work_structure w (rows_of_work w rows) = Ok out)
                  /\ refuses world0 (out_path w) = None).
  { rewrite Forall_forall. split.
    - intros H w Hw. apply group_of_work_id in Hw. exact (H _ Hw).
    - intros H [w rs] Hin. pose proof Hin as Hin'.
      apply group_rows_In in Hin'. destruct Hin' as [-> _].
      apply group_of_work_id in Hin. exact (H w Hin). }
  rewrite <- Hgroups, <- run_works_succeeds. unfold main.
  destruct (validate_columns fieldnames) as [[]|e].
  - split; [intros H; split; [reflexivity | exact H] | intros [_ H]; exact H].
  - split; [intros [w1 H]; discriminate H | intros [H _]; discriminate H].
Qed.

Lemma string_length_append (s t : string) :
  String.length (s ++ t) = String.length s + String.length t.
Proof. induction s as [|c s IH]; simpl; [reflexivity | now rewrite IH]. Qed.

Lemma string_append_inj_r (t : string) : forall s s' : string,
  (s ++ t)%string = (s' ++ t)%string -> s = s'.
Proof.
  induction s as [|c s IH]; intros [|c' s'] H; simpl in H.
  - reflexivity.
  - apply (f_equal String.length) in H. simpl in H.
    rewrite string_length_append in H. lia.
  - apply (f_equal String.length) in H. simpl in H.
    rewrite string_length_append in H. lia.
  - injection H as -> H. now rewrite (IH s' H).
Qed.

Lemma is_sep_slash c : is_sep c = Ascii.eqb "/"%char c.
Proof.
  unfold is_sep, ord. destruct (Ascii.eqb_spec "/"%char c) as [<-|Hne].
  - reflexivity.
  - apply N.eqb_neq. intros H. apply Hne.
    rewrite <- (ascii_N_embedding c), H. reflexivity.
Qed.

Lemma split_plain s : contains "/"%char s = false -> split s = [s].
Proof.
  induction s as [|c s IH]; [reflexivity|].
  cbn [contains split]. intros H. apply orb_false_iff in H. destruct H as [Hc Hs].
  rewrite is_sep_slash, Hc, (IH Hs). reflexivity.
Qed.

Lemma contains_append c s t :
  contains c (s ++ t)%string = contains c s || contains c t.
Proof.
  induction s as [|d s IH]; simpl; [reflexivity|].
  now rewrite IH, orb_assoc.
Qed.

(** The output path of a work id without a slash. *)
Lemma out_path_plain w :
  plain_id w = true ->
  out_path w = ("structures/" ++ w ++ ".structure.yaml")%string.
Proof.
  unfold plain_id. rewrite negb_true_iff. intros Hw.
  assert (Hn : contains "/"%char (w ++ ".structure.yaml")%string = false).
  { rewrite contains_append, Hw. reflexivity. }
  assert (Hk : kept (w ++ ".structure.yaml")%string = true).
  { unfold kept. apply andb_true_iff. split.
    - destruct w; reflexivity.
    - apply negb_true_iff, String.eqb_neq. intros H.
      apply (f_equal String.length) in H.
      rewrite string_length_append in H. simpl in H. lia. }
  assert (Hr : root_of (w ++ ".structure.yaml")%string = EmptyString).
  { destruct w as [|c w]; [reflexivity|]. cbn [contains] in Hw.
    apply orb_false_iff in Hw. destruct Hw as [Hc _].
    cbn [append root_of]. now rewrite is_sep_slash, Hc. }
  unfold out_path, join. rewrite Hr. unfold parts at 2.
  rewrite (split_plain _ Hn). simpl filter. rewrite Hk. reflexivity.
Qed.

Lemma out_path_plain_inj w w' :
  plain_id w = true -> plain_id w' = true -> out_path w = out_path w' -> w = w'.
Proof.
  intros Hw Hw'. rewrite (out_path_plain _ Hw), (out_path_plain _ Hw').
  simpl. intros H. injection H as H. now apply string_append_inj_r in H.
Qed.

(** X11.  A run that succeeds has printed one line [Wrote ...] for each
    work, in the order in which the work ids first occur in the table,
    and nothing else, and has written through the output path of every
    work.  When no work id holds a slash, the path of each work holds
    the document of the rows of that work. *)
Theorem successful_run_writes_every_work fieldnames rows world0 world1 :
  main fieldnames rows world0 = (world1, Ok tt) ->
  stdout world1
  = stdout world0 ++ wrote_lines (first_seen (map Row.work_id rows))
  /\ (forall w, In w (map Row.work_id rows) ->
        mem (out_path w) (files world1) = true)
  /\ ((forall r, In r rows -> plain_id (Row.work_id r) = true) ->
      forall w, In w (map Row.work_id rows) ->
        exists out,
          work_structure w (rows_of_work w rows) = Ok out
          /\ get (out_path w) (files world1) = Some out).
Proof.
  intros H. unfold main in H.
  destruct (validate_columns fieldnames) as [[]|e]; [|discriminate].
  split; [|split].
  - rewrite (run_works_stdout _ _ _ _ H).
    change (map fst (items (group_rows rows))) with (keys (group_rows rows)).
    now rewrite group_rows_keys.
  - intros w Hw. apply group_of_work_id in Hw.
    exact (run_works_written _ _ _ _ _ _ H Hw).
  - intros Hplain w Hw. pose proof Hw as Hg. apply group_of_work_id in Hg.
    destruct (run_works_get _ _ _ _ H (out_path w))
      as [[Hno _]|(w' & rs' & out & Hin & Hk & Hout & Hget)].
    + exfalso. now apply (Hno _ _ Hg).
    + assert (Hw' : In w' (map Row.work_id rows)).
      { pose proof Hin as Hin'. apply group_rows_In in Hin'.
        destruct Hin' as [-> _]. now apply group_of_work_id. }
      assert (Heq : w' = w).
      { apply out_path_plain_inj; [| |exact Hk].
        - apply in_map_iff in Hw'. destruct Hw' as (r & <- & Hr). now apply Hplain.
        - apply in_map_iff in Hw. destruct Hw as (r & <- & Hr). now apply Hplain. }
      subst w'. apply group_rows_In in Hin. destruct Hin as [-> _].
      now exists out.
Qed.

Lemma set_same {V : Type} (d : dict V) k v : get k d = Some v -> Py.set k v d = d.
Proof.
  induction d as [|[k' v'] d IH]; simpl; [discriminate|].
  destruct (String.eqb_spec k' k) as [->|Hne].
  - now intros [= ->].
  - intros H. now rewrite IH.
Qed.

Lemma set_set_same {V : Type} (d : dict V) k v v' :
  Py.set k v (Py.set k v' d) = Py.set k v d.
Proof.
  induction d as [|[k0 v0] d IH]; simpl.
  - now rewrite String.eqb_refl.
  - destruct (String.eqb k0 k) eqn:E; simpl; rewrite E; [reflexivity|].
    now rewrite IH.
Qed.

Lemma set_set_comm {V : Type} (d : dict V) k v k1 v1 :
  k1 <> k -> mem k1 d = true ->
  Py.set k1 v1 (Py.set k v d) = Py.set k v (Py.set k1 v1 d).
Proof.
  intros Hne. unfold mem.
  induction d as [|[k0 v0] d IH]; cbn [get Py.set]; [discriminate|].
  destruct (String.eqb k0 k) eqn:Ek; destruct (String.eqb k0 k1) eqn:Ek1;
    cbn [Py.set]; rewrite ?Ek, ?Ek1; try reflexivity.
  - apply String.eqb_eq in Ek, Ek1. congruence.
  - intros H. now rewrite IH.
Qed.

Lemma mem_set {V : Type} (d : dict V) k v k1 :
  mem k1 d = true -> mem k1 (Py.set k v d) = true.
Proof.
  intros H. unfold mem in *. destruct (string_dec k k1) as [->|Hne].
  - now rewrite get_set_same.
  - now rewrite get_set_other.
Qed.

Lemma write_all_snoc l kv d :
  write_all (l ++ [kv]) d = Py.set (fst kv) (snd kv) (write_all l d).
Proof. unfold write_all. now rewrite fold_left_app. Qed.

Lemma write_all_mem l : forall d k,
  In k (map fst l) \/ mem k d = true -> mem k (write_all l d) = true.
Proof.
  induction l as [|[k0 v0] l IH]; intros d k H; simpl.
  - destruct H as [[]|H]; exact H.
  - apply IH. destruct H as [[<-|H]|H].
    + right. unfold mem. simpl. now rewrite get_set_same.
    + now left.
    + right. now apply mem_set.
Qed.

Lemma write_all_absorbs l k v : forall d,
  (forall k1, In k1 (map fst l) -> mem k1 d = true) ->
  Py.set k v (write_all l (Py.set k v d)) = Py.set k v (write_all l d).
Proof.
  induction l as [|[k1 v1] l IH]; intros d H; simpl.
  - apply set_set_same.
  - destruct (string_dec k1 k) as [->|Hne].
    + now rewrite set_set_same.
    + rewrite (set_set_comm d k v k1 v1 Hne) by (apply H; now left).
      apply IH. intros k2 Hk2. apply mem_set. apply H. now right.
Qed.

(** Writing the same documents through the same paths once more changes
    nothing. *)
Lemma write_all_idem l : forall d, write_all l (write_all l d) = write_all l d.
Proof.
  induction l as [|[k v] l IH] using rev_ind; intros d; [reflexivity|].
  rewrite !write_all_snoc. simpl.
  rewrite write_all_absorbs.
  - now rewrite IH.
  - intros k1 Hk1. apply write_all_mem. now left.
Qed.

(** The writes of a run that succeeds, and the same run in another
    world with the same file system. *)
Lemma run_works_writes gs : forall w0 w1 u,
  run_works gs w0 = (w1, Ok u) ->
  exists l,
    files w1 = write_all l (files w0)
    /\ forall w0', refuses w0' = refuses w0 ->
         exists w1', run_works gs w0' = (w1', Ok tt)
                     /\ files w1' = write_all l (files w0').
Proof.
  induction gs as [|[w rs] gs IH]; intros w0 w1 u H.
  - simpl in H. injection H as <- _. exists []. split; [reflexivity|].
    intros w0' _. now exists w0'.
  - destruct (run_works_cons_Ok _ _ _ _ _ _ H) as (out & Hout & Hr & Hrest).
    destruct (IH _ _ _ Hrest) as (l & Hfiles & Hagain).
    exists ((out_path w, out) :: l). split; [exact Hfiles|].
    intros w0' Hsame. simpl.
    rewrite (build_work_structure_writes _ _ _ _ Hout)
      by (rewrite Hsame; exact Hr).
    destruct (Hagain (mkWorld (Py.set (out_path w) out (files w0'))
                              (stdout w0' ++ [("Wrote " ++ out_path w)%string])
                              (refuses w0')) Hsame)
      as (w1' & Hrun & Hf).
    now exists w1'.
Qed.

(** X12.  Running the importer again on the same table, over the files
    that a successful run has left, succeeds and leaves every file as it
    is. *)
Theorem second_run_changes_no_file fieldnames rows world0 world1 :
  main fieldnames rows world0 = (world1, Ok tt) ->
  exists world2,
    main fieldnames rows world1 = (world2, Ok tt)
    /\ files world2 = files world1.
Proof.
  intros H. unfold main in *.
  destruct (validate_columns fieldnames) as [[]|e]; [|discriminate].
  destruct (run_works_writes _ _ _ _ H) as (l & Hfiles & Hagain).
  assert (Hsame : refuses world1 = refuses world0).
  { pose proof (run_works_refuses (items (group_rows rows)) world0) as Hr.
    now rewrite H in Hr. }
  destruct (Hagain world1 Hsame) as (world2 & Hrun & Hf).
  exists world2. split; [exact Hrun|].
  rewrite Hf, Hfiles. apply write_all_idem.
Qed.

Lemma run_works_untouched gs k : forall w0,
  (forall g, In g gs -> k <> out_path (fst g)) ->
  get k (files (fst (run_works gs w0))) = get k (files w0).
Proof.
  induction gs as [|[w rs] gs IH]; intros w0 H; simpl; [reflexivity|].
  unfold build_work_structure.
  destruct (work_structure w rs) as [out|e]; [|reflexivity].
  destruct (refuses w0 (out_path w)) as [e|]; [reflexivity|].
  rewrite IH by (intros g Hg; apply H; now right). simpl.
  apply get_set_other. intros Heq. apply (H (w, rs) (or_introl eq_refl)).
  now symmetry.
Qed.

Lemma run_works_stdout_grows gs : forall w0,
  exists more, stdout (fst (run_works gs w0)) = stdout w0 ++ more.
Proof.
  induction gs as [|[w rs] gs IH]; intros w0; simpl.
  - exists []. now rewrite app_nil_r.
  - unfold build_work_structure.
    destruct (work_structure w rs) as [out|e];
      [|exists []; simpl; now rewrite app_nil_r].
    destruct (refuses w0 (out_path w)) as [e|];
      [exists []; simpl; now rewrite app_nil_r|].
    destruct (IH (mkWorld (Py.set (out_path w) out (files w0))
                          (stdout w0 ++ [("Wrote " ++ out_path w)%string])
                          (refuses w0)))
      as [more Hm].
    rewrite Hm. simpl. rewrite <- app_assoc. now eexists.
Qed.

(** X13.  However the run ends, the importer writes through no path but
    the output paths of the work ids of the table: any other path holds
    what it held before; and what had been printed before is still the
    beginning of what is printed. *)
Theorem run_touches_only_its_works fieldnames rows world0 :
  (forall k, (forall r, In r rows -> k <> out_path (Row.work_id r)) ->
             get k (files (fst (main fieldnames rows world0)))
             = get k (files world0))
  /\ exists more,
       stdout (fst (main fieldnames rows world0)) = stdout world0 ++ more.
Proof.
  unfold main. destruct (validate_columns fieldnames) as [[]|e].
  - split; [|apply run_works_stdout_grows].
    intros k Hk. apply run_works_untouched. intros [w rs] Hin.
    apply group_rows_In in Hin. destruct Hin as [-> Hne]. simpl.
    destruct (rows_of_work w rows) as [|r rs] eqn:E; [congruence|].
    assert (Hin : In r (rows_of_work w rows)) by (rewrite E; now left).
    apply filter_In in Hin. destruct Hin as [Hin He].
    apply String.eqb_eq in He. subst w. now apply Hk.
  - split; [reflexivity|]. exists []. simpl. now rewrite app_nil_r.
Qed.

(** *** Trimmed strings *)

Lemma rstrip_cons c s :
  rstrip (String c s)
  = match rstrip s with
    | EmptyString => if isspace c then EmptyString else String c EmptyString
    | t => String c t
    end.
Proof. reflexivity. Qed.

Lemma rstrip_idem s : rstrip (rstrip s) = rstrip s.
Proof.
  induction s as [|c s IH]; [reflexivity|].
  rewrite rstrip_cons. destruct (rstrip s) as [|d t] eqn:E.
  - destruct (isspace c) eqn:Ec; [reflexivity|].
    rewrite rstrip_cons. simpl. now rewrite Ec.
  - rewrite rstrip_cons, IH. reflexivity.
Qed.

Lemma lstrip_head s :
  lstrip s = EmptyString
  \/ exists c t, lstrip s = String c t /\ isspace c = false.
Proof.
  induction s as [|c s IH]; simpl; [now left|].
  destruct (isspace c) eqn:E; [exact IH|]. right. now exists c, s.
Qed.

Lemma lstrip_rstrip_lstrip s : lstrip (rstrip (lstrip s)) = rstrip (lstrip s).
Proof.
  destruct (lstrip_head s) as [->|(c & t & -> & Hc)]; [reflexivity|].
  rewrite rstrip_cons. destruct (rstrip t); [rewrite Hc|]; simpl; now rewrite Hc.
Qed.

Lemma strip_idem s : strip (strip s) = strip s.
Proof. unfold strip. now rewrite lstrip_rstrip_lstrip, rstrip_idem. Qed.

Lemma Forall_set {V : Type} (P : string * V -> Prop) (d : dict V) k v :
  Forall P d -> P (k, v) -> Forall P (Py.set k v d).
Proof.
  intros Hd Hkv. induction d as [|[k' v'] d IH]; simpl.
  - now constructor.
  - inversion Hd as [|? ? Hh Ht]; subst.
    destruct (String.eqb_spec k' k) as [->|Hne]; constructor; auto.
Qed.

Lemma pair_clean_strip a b :
  truthy (strip a) && truthy (strip b) = true -> pair_clean (strip a, strip b).
Proof.
  intros H. apply andb_true_iff in H. destruct H as [Ha Hb].
  unfold pair_clean, is_trimmed. simpl. rewrite !strip_idem.
  repeat split; try reflexivity; now apply truthy_nonempty.
Qed.

Lemma update_node_clean r n :
  ((forall p, Node.parent n = Some p -> is_trimmed p /\ p <> EmptyString)
   /\ Forall pair_clean (Node.title n)
   /\ (forall l, Node.links n = Some l -> l <> [] /\ Forall pair_clean l)) ->
  (forall p, Node.parent (update_node r n) = Some p ->
             is_trimmed p /\ p <> EmptyString)
  /\ Forall pair_clean (Node.title (update_node r n))
  /\ (forall l, Node.links (update_node r n) = Some l ->
                l <> [] /\ Forall pair_clean l).
Proof.
  intros (Hp & Ht & Hl).
  destruct (update_node_effect r n) as (-> & -> & ->). split; [|split].
  - destruct (truthy (strip (Row.parent_id r))) eqn:E; [|exact Hp].
    intros p [= <-]. split; [apply strip_idem | now apply truthy_nonempty].
  - destruct (truthy (strip (Row.lang r)) && truthy (strip (Row.title r))) eqn:E;
      [|exact Ht].
    apply Forall_set; [exact Ht | now apply pair_clean_strip].
  - destruct (truthy (strip (Row.site r)) && truthy (strip (Row.url r))) eqn:E;
      [|exact Hl].
    intros l [= <-]. split; [apply set_not_nil|].
    apply Forall_set; [|now apply pair_clean_strip].
    destruct (Node.links n) as [l0|]; [now apply Hl | constructor].
Qed.

Lemma fold_upd_clean rs : forall n,
  ((forall p, Node.parent n = Some p -> is_trimmed p /\ p <> EmptyString)
   /\ Forall pair_clean (Node.title n)
   /\ (forall l, Node.links n = Some l -> l <> [] /\ Forall pair_clean l)) ->
  (forall p, Node.parent (fold_left upd rs n) = Some p ->
             is_trimmed p /\ p <> EmptyString)
  /\ Forall pair_clean (Node.title (fold_left upd rs n))
  /\ (forall l, Node.links (fold_left upd rs n) = Some l ->
                l <> [] /\ Forall pair_clean l).
Proof.
  induction rs as [|r rs IH]; intros n H; simpl; [exact H|].
  apply IH. now apply update_node_clean.
Qed.

Lemma accumulate_node_clean w rows nodes n :
  accumulate w [] rows = Ok nodes -> In n (values nodes) -> node_clean n.
Proof.
  intros Ha Hin. pose proof (accumulate_value _ _ _ _ Ha Hin) as Hg.
  destruct (accumulate_node _ _ _ _ _ Ha Hg) as (first & later & o & Hr & _ & Hn).
  assert (Hf : In first (rows_for (Node.id n) rows)) by (rewrite Hr; now left).
  unfold rows_for in Hf. apply filter_In in Hf. destruct Hf as [Hf He].
  apply String.eqb_eq in He.
  destruct (accumulate_rows_ok _ _ _ _ Ha first Hf) as [Hne _].
  destruct (fold_upd_fixed (first :: later) (first_node (Node.id n) first o))
    as (_ & Hlevel & _).
  rewrite <- Hn in Hlevel. simpl in Hlevel.
  unfold node_clean.
  split; [unfold is_trimmed; rewrite <- He; apply strip_idem|].
  split; [now rewrite <- He|].
  split; [unfold is_trimmed; rewrite Hlevel; apply strip_idem|].
  rewrite Hn. apply fold_upd_clean. simpl.
  split; [discriminate|]. split; [constructor | discriminate].
Qed.

(** X14.  The strings of a document carry no blanks around them: the id
    and the level of a node, its parent, the languages and titles, the
    sites and urls, and the ids of the levels.  Ids, parents, languages,
    titles, sites and urls are not empty either (a level may be), and a
    mapping of links that is there is not empty. *)
Theorem document_strings_are_trimmed w rows out :
  work_structure w rows = Ok out ->
  Forall node_clean (Document.nodes out)
  /\ Forall (fun L => is_trimmed (Level.id L)) (Document.levels out).
Proof.
  intros H. destruct (work_structure_ok _ _ _ H) as (nodes & Ha & _ & Hout).
  split.
  - apply Forall_forall. intros n Hin.
    apply (Permutation_in _ (document_nodes_perm _ _ _ _ H Ha)) in Hin.
    exact (accumulate_node_clean _ _ _ _ Ha Hin).
  - rewrite Hout. simpl. apply Forall_forall. intros L HL.
    apply levels_of_In in HL. unfold items in HL.
    destruct (infer_levels_spec (values nodes)) as [Hnd Hspec].
    fold (infer_levels nodes) in Hnd, Hspec.
    apply (In_get _ _ _ Hnd) in HL. specialize (Hspec (Level.id L)).
    rewrite HL in Hspec. destruct Hspec as ((n & Hn & Hl & _) & _).
    rewrite <- Hl. exact (proj1 (proj2 (proj2 (accumulate_node_clean _ _ _ _ Ha Hn)))).
Qed.

(** *** The node order does not depend on the order of creation *)

Lemma key_le_antisym a b : key_le a b -> key_le b a -> Node.id a = Node.id b.
Proof.
  unfold key_le. intros [H1|(E1 & H1)] [H2|(E2 & H2)].
  - pose proof (string_compare_lt_trans _ _ _ H1 H2) as H.
    rewrite string_compare_refl in H. discriminate.
  - rewrite E2, string_compare_refl in H1. discriminate.
  - rewrite E1, string_compare_refl in H2. discriminate.
  - destruct H1 as [H1|(O1 & H1)], H2 as [H2|(O2 & H2)]; try lia.
    destruct (String.compare (Node.id a) (Node.id b)) eqn:E.
    + now apply String.compare_eq_iff.
    + apply string_compare_gt_lt in E. congruence.
    + congruence.
Qed.

Lemma NoDup_map_inj_in {A B : Type} (f : A -> B) l a b :
  NoDup (map f l) -> In a l -> In b l -> f a = f b -> a = b.
Proof.
  induction l as [|x l IH]; simpl; [tauto|].
  intros Hnd Ha Hb Hf. inversion Hnd as [|? ? Hnotin Hnd']; subst.
  destruct Ha as [->|Ha], Hb as [->|Hb]; auto.
  - exfalso. apply Hnotin. rewrite Hf. now apply in_map.
  - exfalso. apply Hnotin. rewrite <- Hf. now apply in_map.
Qed.

Lemma StronglySorted_unique {A : Type} (R : A -> A -> Prop) : forall l1 l2,
  StronglySorted R l1 -> StronglySorted R l2 -> Permutation l1 l2 ->
  (forall a b, In a l1 -> In b l1 -> R a b -> R b a -> a = b) ->
  l1 = l2.
Proof.
  induction l1 as [|a l1 IH]; intros l2 H1 H2 Hp Hanti.
  - apply Permutation_nil in Hp. now subst.
  - destruct l2 as [|b l2];
      [apply Permutation_sym, Permutation_nil in Hp; discriminate|].
    inversion H1 as [|? ? H1' Hall1]; subst.
    inversion H2 as [|? ? H2' Hall2]; subst.
    rewrite Forall_forall in Hall1, Hall2.
    assert (Hab : a = b).
    { assert (Ha : In a (b :: l2)) by (apply (Permutation_in _ Hp); now left).
      assert (Hb : In b (a :: l1))
        by (apply (Permutation_in _ (Permutation_sym Hp)); now left).
      destruct Ha as [<-|Ha]; [reflexivity|].
      destruct Hb as [<-|Hb]; [reflexivity|].
      apply Hanti; [now left | now right | now apply Hall1 | now apply Hall2]. }
    subst b. f_equal. apply IH; try assumption.
    + now apply Permutation_cons_inv in Hp.
    + intros x y Hx Hy. apply Hanti; now right.
Qed.

Lemma sorted_nodes_unique (l1 l2 : list Node.t) :
  Permutation l1 l2 ->
  NoDup (map Node.id l1) ->
  sorted sort_key key_lt l1 = sorted sort_key key_lt l2.
Proof.
  intros Hp Hnd.
  assert (Hs : forall l, StronglySorted key_le (sorted sort_key key_lt l)).
  { intros l. apply sorted_sorted;
      [apply key_lt_le | apply key_not_lt_le | apply key_le_trans]. }
  apply (StronglySorted_unique key_le); [apply Hs | apply Hs | |].
  - apply perm_trans with l1; [apply sorted_perm|].
    apply perm_trans with l2; [exact Hp | apply Permutation_sym, sorted_perm].
  - intros a b Ha Hb Hab Hba.
    apply (Permutation_in _ (sorted_perm _ _ _)) in Ha, Hb.
    apply (NoDup_map_inj_in Node.id l1); try assumption.
    now apply key_le_antisym.
Qed.

(** X15.  The node list of a document depends on the nodes only, not on
    the order in which the rows created them: two works that end up with
    the same nodes, in whatever order, get the same node list. *)
Theorem node_list_ignores_creation_order w1 rows1 out1 nodes1 w2 rows2 out2 nodes2 :
  work_structure w1 rows1 = Ok out1 ->
  work_structure w2 rows2 = Ok out2 ->
  accumulate w1 [] rows1 = Ok nodes1 ->
  accumulate w2 [] rows2 = Ok nodes2 ->
  Permutation (values nodes1) (values nodes2) ->
  Document.nodes out1 = Document.nodes out2.
Proof.
  intros H1 H2 Ha1 Ha2 Hp.
  destruct (work_structure_ok _ _ _ H1) as (n1 & Ha1' & _ & ->).
  destruct (work_structure_ok _ _ _ H2) as (n2 & Ha2' & _ & ->).
  assert (n1 = nodes1) by congruence. assert (n2 = nodes2) by congruence.
  subst. simpl. apply sorted_nodes_unique; [exact Hp|].
  rewrite <- (accumulate_keys _ _ _ Ha1).
  exact (accumulate_NoDup _ _ _ _ Ha1 (NoDup_nil _)).
Qed.

(** *** Ties among the levels *)

Section Stable.
Context {A K : Type} (key : A -> K) (lt : K -> K -> bool).

Lemma insert_split x l :
  exists l1 l2,
    l = l1 ++ l2
    /\ insert key lt x l = l1 ++ x :: l2
    /\ Forall (fun y => lt (key y) (key x) = true) l1.
Proof.
  induction l as [|y l IH]; simpl.
  - exists [], []. now repeat split.
  - destruct (lt (key y) (key x)) eqn:E.
    + destruct IH as (l1 & l2 & -> & -> & Hall).
      exists (y :: l1), l2. repeat split. now constructor.
    + exists [], (y :: l). now repeat split.
Qed.

Lemma before_insert_middle (a b x : A) l1 l2 :
  before a b (l1 ++ l2) -> before a b (l1 ++ x :: l2).
Proof.
  intros (m1 & m2 & m3 & H). revert m1 H.
  induction l1 as [|y l1 IH]; intros m1 H; simpl in *.
  - exists (x :: m1), m2, m3. now rewrite H.
  - destruct m1 as [|z m1]; simpl in H; injection H as <- H.
    + assert (Hb : In b (l1 ++ l2)) by (rewrite H; apply in_or_app; right; now left).
      assert (Hb' : In b (l1 ++ x :: l2)).
      { apply in_app_or in Hb. apply in_or_app. destruct Hb; [now left|].
        right. now right. }
      apply in_split in Hb'. destruct Hb' as (n1 & n2 & ->).
      now exists [], n1, n2.
    + destruct (IH m1 H) as (k1 & k2 & k3 & ->).
      now exists (y :: k1), k2, k3.
Qed.

(** The sort is stable. *)
Lemma sorted_stable l : forall a b,
  before a b l -> lt (key b) (key a) = false ->
  before a b (sorted key lt l).
Proof.
  induction l as [|x l IH]; intros a b Hab Hk.
  - destruct Hab as ([|? ?] & ? & ? & H); discriminate H.
  - simpl. destruct (insert_split x (sorted key lt l)) as (l1 & l2 & Hl & -> & Hall).
    destruct Hab as ([|y m1] & m2 & m3 & H); simpl in H; injection H as <- H.
    + assert (Hb : In b (l1 ++ l2)).
      { rewrite <- Hl. apply (Permutation_in _ (Permutation_sym (sorted_perm key lt l))).
        rewrite H. apply in_or_app. right. now left. }
      apply in_app_or in Hb. destruct Hb as [Hb|Hb].
      * rewrite Forall_forall in Hall. specialize (Hall b Hb). congruence.
      * apply in_split in Hb. destruct Hb as (n1 & n2 & ->).
        now exists l1, n1, n2.
    + apply before_insert_middle. rewrite <- Hl. apply IH; [|exact Hk].
      now exists m1, m2, m3.
Qed.
End Stable.

Lemma before_NoDup_neq {A : Type} (a b : A) l : NoDup l -> before a b l -> a <> b.
Proof.
  intros Hnd Hab. rewrite <- (map_id l) in Hnd.
  exact (before_distinct (fun x => x) a b l Hnd Hab).
Qed.

Lemma before_asym {A : Type} (a b : A) l :
  NoDup l -> before a b l -> before b a l -> False.
Proof.
  intros Hnd (l1 & l2 & l3 & ->) (m1 & m2 & m3 & H).
  revert m1 H Hnd. induction l1 as [|x l1 IH]; intros m1 H Hnd; simpl in *.
  - inversion Hnd as [|? ? Hnotin Hnd']; subst.
    destruct m1 as [|y m1]; simpl in H; injection H as H1 H2.
    + subst b. apply Hnotin, in_or_app. right. now left.
    + apply Hnotin. rewrite H2. apply in_or_app. right. right.
      apply in_or_app. right. now left.
  - inversion Hnd as [|? ? Hnotin Hnd']; subst.
    destruct m1 as [|y m1]; simpl in H; injection H as H1 H2.
    + subst x. apply Hnotin. apply in_or_app. right. right.
      apply in_or_app. right. now left.
    + exact (IH m1 H2 Hnd').
Qed.

Lemma before_total {A : Type} (a b : A) l :
  In a l -> In b l -> a <> b -> before a b l \/ before b a l.
Proof.
  intros Ha Hb Hne. apply in_split in Ha. destruct Ha as (l1 & l2 & ->).
  apply in_app_or in Hb. destruct Hb as [Hb|[Hb|Hb]]; [|congruence|].
  - right. apply in_split in Hb. destruct Hb as (m1 & m2 & ->).
    exists m1, m2, l2. now rewrite <- app_assoc.
  - left. apply in_split in Hb. destruct Hb as (m1 & m2 & ->).
    now exists l1, m1, m2.
Qed.

Lemma before_map {A B : Type} (f : A -> B) a b l :
  before a b l -> before (f a) (f b) (map f l).
Proof.
  intros (l1 & l2 & l3 & ->). exists (map f l1), (map f l2), (map f l3).
  rewrite map_app. simpl. now rewrite map_app.
Qed.

Lemma before_map_inv {A B : Type} (f : A -> B) x y l :
  before x y (map f l) ->
  exists a b, f a = x /\ f b = y /\ before a b l.
Proof.
  intros (l1 & l2 & l3 & H).
  apply map_eq_app in H. destruct H as (m1 & m & -> & <- & H).
  destruct m as [|a m]; [discriminate|]. simpl in H. injection H as <- H.
  apply map_eq_app in H. destruct H as (m2 & m' & -> & <- & H).
  destruct m' as [|b m3]; [discriminate|]. simpl in H. injection H as <- H.
  exists a, b. repeat split. now exists m1, m2, m3.
Qed.

(** The levels enter the catalogue in the order in which the nodes, in
    their order of creation, first carry them. *)
Lemma infer_levels_keys (l : list Node.t) :
  keys (fold_left level_step l []) = first_seen (map Node.level l).
Proof.
  induction l as [|n l IH] using rev_ind; [reflexivity|].
  rewrite fold_left_app, map_app. simpl. rewrite first_seen_snoc.
  unfold level_step at 1. rewrite keys_set, (mem_first_seen _ _ _ IH), IH.
  reflexivity.
Qed.

(** X16.  Two levels with the same least ordinal stand in the level list
    in the order in which the nodes, taken in their order of creation,
    first carry them. *)
Theorem level_ties_keep_first_appearance w rows out nodes a b :
  work_structure w rows = Ok out ->
  accumulate w [] rows = Ok nodes ->
  before a b (Document.levels out) ->
  Level.ordinal a = Level.ordinal b ->
  before (Level.id a) (Level.id b) (first_seen (map Node.level (values nodes))).
Proof.
  intros H Ha Hab Hord.
  destruct (work_structure_ok _ _ _ H) as (nodes' & Ha' & _ & ->).
  assert (nodes' = nodes) by congruence. subst nodes'. simpl in Hab.
  unfold levels_of, items in Hab.
  apply before_map_inv in Hab. destruct Hab as ([ka oa] & [kb ob] & <- & <- & Hab).
  simpl in *. subst ob.
  rewrite <- infer_levels_keys. fold (infer_levels nodes).
  destruct (infer_levels_spec (values nodes)) as [Hnd _].
  fold (infer_levels nodes) in Hnd.
  assert (Hnd' : NoDup (infer_levels nodes)).
  { unfold keys in Hnd. now apply NoDup_map_inv in Hnd. }
  set (srt := sorted (fun x : string * Z => snd x) Z.ltb (infer_levels nodes)) in *.
  assert (Hps : Permutation srt (infer_levels nodes)) by apply sorted_perm.
  assert (Hneq : (ka, oa) <> (kb, oa)).
  { apply (before_NoDup_neq _ _ srt); [|exact Hab].
    exact (Permutation_NoDup (Permutation_sym Hps) Hnd'). }
  destruct (before_In _ _ _ Hab) as [Hina Hinb].
  apply (Permutation_in _ Hps) in Hina, Hinb.
  destruct (before_total _ _ _ Hina Hinb Hneq) as [Hok|Hrev].
  - exact (before_map fst _ _ _ Hok).
  - exfalso.
    assert (Hst : before (kb, oa) (ka, oa) srt).
    { apply sorted_stable; [exact Hrev|]. simpl. apply Z.ltb_irrefl. }
    apply (before_asym (ka, oa) (kb, oa) srt); try assumption.
    exact (Permutation_NoDup (Permutation_sym Hps) Hnd').
Qed.

(** X17.  After a run that succeeds on a table none of whose work ids
    holds a slash, the file of a work holds a document whose nodes are
    those of the rows of that work and of no other: a node id is in it
    exactly when a row with that work id bears it. *)
Theorem each_file_holds_its_own_work fieldnames rows world0 world1 w :
  main fieldnames rows world0 = (world1, Ok tt) ->
  (forall r, In r rows -> plain_id (Row.work_id r) = true) ->
  In w (map Row.work_id rows) ->
  exists out,
    get (out_path w) (files world1) = Some out
    /\ forall id,
         In id (map Node.id (Document.nodes out))
         <-> exists r, In r rows /\ Row.work_id r = w /\ strip (Row.node_id r) = id.
Proof.
  intros H Hplain Hw. unfold main in H.
  destruct (validate_columns fieldnames) as [[]|e]; [|discriminate].
  pose proof Hw as Hg. apply group_of_work_id in Hg.
  destruct (run_works_get _ _ _ _ H (out_path w))
    as [[Hno _]|(w' & rs' & out & Hin & Hk & Hout & Hget)];
    [exfalso; now apply (Hno _ _ Hg)|].
  assert (Hw' : In w' (map Row.work_id rows)).
  { pose proof Hin as Hin'. apply group_rows_In in Hin'.
    destruct Hin' as [-> _]. now apply group_of_work_id. }
  assert (Heq : w' = w).
  { apply out_path_plain_inj; [| |exact Hk].
    - apply in_map_iff in Hw'. destruct Hw' as (r & <- & Hr). now apply Hplain.
    - apply in_map_iff in Hw. destruct Hw as (r & <- & Hr). now apply Hplain. }
  subst w'. apply group_rows_In in Hin. destruct Hin as [-> _].
  exists out. split; [exact Hget|]. intros id.
  destruct (work_structure_ok _ _ _ Hout) as (nodes & Ha & _ & _).
  pose proof (Permutation_map Node.id (document_nodes_perm _ _ _ _ Hout Ha)) as Hp.
  rewrite <- (accumulate_keys _ _ _ Ha) in Hp.
  transitivity (mem id nodes = true).
  - rewrite mem_In. split; apply Permutation_in;
      [exact Hp | exact (Permutation_sym Hp)].
  - rewrite (accumulate_mem_rows _ _ _ id Ha). unfold rows_of_work, trimmed_node_id.
    split.
    + intros (r & Hr & Hid). apply filter_In in Hr. destruct Hr as [Hr He].
      apply String.eqb_eq in He. now exists r.
    + intros (r & Hr & Hwr & Hid). exists r. split; [|exact Hid].
      apply filter_In. split; [exact Hr | now apply String.eqb_eq].
Qed.

(** ** The further statements at the sample tables *)

Lemma successful_run_writes_every_work_sample :
  stdout Sample2.two_works_world
  = stdout empty_world
    ++ wrote_lines (first_seen (map Row.work_id Sample2.two_works))
  /\ (forall w, In w (map Row.work_id Sample2.two_works) ->
        mem (out_path w) (files Sample2.two_works_world) = true)
  /\ ((forall r, In r Sample2.two_works -> plain_id (Row.work_id r) = true) ->
      forall w, In w (map Row.work_id Sample2.two_works) ->
        exists out,
          work_structure w (rows_of_work w Sample2.two_works) = Ok out
          /\ get (out_path w) (files Sample2.two_works_world) = Some out).
Proof.
  apply (successful_run_writes_every_work header Sample2.two_works empty_world
           Sample2.two_works_world).
  reflexivity.
Defined.

Lemma second_run_changes_no_file_sample :
  exists world2,
    main header Sample2.two_works Sample2.two_works_world = (world2, Ok tt)
    /\ files world2 = files Sample2.two_works_world.
Proof.
  apply (second_run_changes_no_file header Sample2.two_works empty_world
           Sample2.two_works_world).
  reflexivity.
Defined.

Lemma document_strings_are_trimmed_sample :
  Forall node_clean (Document.nodes Sample.repeated_node_out)
  /\ Forall (fun L => is_trimmed (Level.id L))
       (Document.levels Sample.repeated_node_out).
Proof.
  apply (document_strings_are_trimmed "W1" Sample.repeated_node
           Sample.repeated_node_out).
  reflexivity.
Defined.

Lemma node_list_ignores_creation_order_sample :
  Document.nodes Sample.forest_out = Document.nodes Sample2.forest_shuffled_out.
Proof.
  apply (node_list_ignores_creation_order
           "W1" Sample.forest Sample.forest_out Sample2.forest_nodes
           "W1" Sample2.forest_shuffled Sample2.forest_shuffled_out
           Sample2.forest_shuffled_nodes).
  - reflexivity.
  - reflexivity.
  - reflexivity.
  - reflexivity.
  - change (values Sample2.forest_shuffled_nodes)
      with (rev (values Sample2.forest_nodes)).
    apply Permutation_rev.
Defined.

Lemma level_ties_keep_first_appearance_sample :
  before "sec"%string "ch"%string
    (first_seen (map Node.level (values Sample2.forest_nodes))).
Proof.
  apply (level_ties_keep_first_appearance "W1" Sample.forest Sample.forest_out
           Sample2.forest_nodes (Level.mk "sec" 1) (Level.mk "ch" 1)).
  - reflexivity.
  - reflexivity.
  - exists [], [], []. reflexivity.
  - reflexivity.
Defined.

Lemma each_file_holds_its_own_work_sample :
  exists out,
    get (out_path "W2") (files Sample2.two_works_world) = Some out
    /\ forall id,
         In id (map Node.id (Document.nodes out))
         <-> exists r, In r Sample2.two_works
                       /\ Row.work_id r = "W2"%string
                       /\ strip (Row.node_id r) = id.
Proof.
  apply (each_file_holds_its_own_work header Sample2.two_works empty_world
           Sample2.two_works_world "W2"%string).
  - reflexivity.
  - intros r [<-|[<-|[<-|[]]]]; reflexivity.
  - left. reflexivity.
Defined.

(** X18.  A run that succeeds has met no bad row: every row of the table
    has a node id that is not blank and an ordinal that [int] accepts. *)
Theorem successful_run_has_valid_rows fieldnames rows world0 world1 :
  main fieldnames rows world0 = (world1, Ok tt) ->
  Forall row_valid rows.
Proof.
  intros H. apply main_Ok_builds in H. rewrite Forall_forall in H.
  apply Forall_forall. intros r Hr.
  assert (Hg : In (Row.work_id r, rows_of_work (Row.work_id r) rows)
                  (items (group_rows rows))).
  { apply group_of_work_id, in_map_iff. now exists r. }
  destruct (H _ Hg) as [out Hout]. simpl in Hout.
  destruct (work_structure_ok _ _ _ Hout) as (nodes & Ha & _).
  pose proof (accumulate_Ok_valid _ _ _ Ha) as Hv. rewrite Forall_forall in Hv.
  apply Hv, filter_In. split; [exact Hr | apply String.eqb_refl].
Qed.

Lemma successful_run_has_valid_rows_sample : Forall row_valid Sample2.two_works.
Proof.
  apply (successful_run_has_valid_rows header Sample2.two_works empty_world
           Sample2.two_works_world).
  reflexivity.
Defined.
